(** * gomail: the send orchestration core (send.go)

    A shallow embedding of [send.go]: envelope extraction from a message's
    header ([getFrom], [getRecipients], [addAddress], [parseAddress]), the
    [Sender] interface with its function adapter [SendFunc], the batch
    driver [Send] with its per-message helper [send], and the predicate
    [IsSkipRcptErr].

    Go strings are byte strings: a Rocq [string] holds one byte per
    character.  A Go [error] interface value is [option error], [None]
    being nil.  A Go function returning [(T, error)] returns a pair. *)

From Stdlib Require Import ZArith Lia List Ascii String DecimalString.
From stdpp Require Import base option list strings gmap.

Local Open Scope Z_scope.

(** ** Strings: the pieces of the Go library that send.go calls *)

Module GoString.

(** The double quote, built from its code. *)
Definition dq : ascii := "034"%char.
Definition backslash : ascii := "092"%char.

Definition byteZ (c : ascii) : Z := Z.of_N (N_of_ascii c).
Definition byte_of (z : Z) : ascii := ascii_of_N (Z.to_N z).
Definition str1 (c : ascii) : string := String c EmptyString.

(** strings.HasPrefix(s, prefix) *)
Definition HasPrefix (s pre : string) : bool := String.prefix pre s.

(** strings.Contains(s, substr) *)
Fixpoint Contains (s substr : string) : bool :=
  HasPrefix s substr
  || match s with
     | EmptyString => false
     | String _ t => Contains t substr
     end.

(** fmt's [%d] of an int. *)
Definition fmt_d (i : Z) : string := NilZero.string_of_int (Z.to_int i).

(** fmt's [%v] of a [[]string]: the elements between brackets, one space
    between two of them. *)
Fixpoint join_space (l : list string) : string :=
  match l with
  | [] => EmptyString
  | [x] => x
  | x :: rest => x +:+ " " +:+ join_space rest
  end.
Definition fmt_v_strings (l : list string) : string :=
  "[" +:+ join_space l +:+ "]".

End GoString.
Import GoString.

(** ** strconv.Quote, which fmt's [%q] applies to a string *)

Module Strconv.

Definition RuneSelf : Z := 0x80.
Definition RuneError : Z := 0xFFFD.
Definition MaxRune : Z := 0x10FFFF.

Definition hexdigits : list ascii := list_ascii_of_string "0123456789abcdef".
Definition lowerhex (d : Z) : ascii := nth (Z.to_nat d) hexdigits "0"%char.

(** What utf8's [first] table and [acceptRanges] say of a leading byte of
    0x80 and above: no sequence starts here, or a sequence of [size]
    bytes whose second byte lies in [lo, hi]. *)
Inductive lead : Type :=
| LeadInvalid
| Lead (size : nat) (lo hi : Z).

Definition first (b : Z) : lead :=
  if b <? 0xC2 then LeadInvalid
  else if b <=? 0xDF then Lead 2 0x80 0xBF
  else if b =? 0xE0 then Lead 3 0xA0 0xBF
  else if b =? 0xED then Lead 3 0x80 0x9F
  else if b <=? 0xEF then Lead 3 0x80 0xBF
  else if b =? 0xF0 then Lead 4 0x90 0xBF
  else if b <=? 0xF3 then Lead 4 0x80 0xBF
  else if b =? 0xF4 then Lead 4 0x80 0x8F
  else LeadInvalid.

Definition cont (b : Z) : bool := (0x80 <=? b) && (b <=? 0xBF).
Definition low6 (b : Z) : Z := Z.land b 0x3F.

(** utf8.DecodeRuneInString: the rune at the head of [s] and its width. *)
Definition DecodeRuneInString (s : string) : Z * nat :=
  match s with
  | EmptyString => (RuneError, 0%nat)
  | String c0 t0 =>
    let s0 := byteZ c0 in
    if s0 <? RuneSelf then (s0, 1%nat) else
    match first s0 with
    | LeadInvalid => (RuneError, 1%nat)
    | Lead sz lo hi =>
      if (String.length s <? sz)%nat then (RuneError, 1%nat) else
      match t0 with
      | EmptyString => (RuneError, 1%nat)
      | String c1 t1 =>
        let s1 := byteZ c1 in
        if (s1 <? lo) || (hi <? s1) then (RuneError, 1%nat) else
        if (sz <=? 2)%nat
        then (Z.lor (Z.shiftl (Z.land s0 0x1F) 6) (low6 s1), 2%nat) else
        match t1 with
        | EmptyString => (RuneError, 1%nat)
        | String c2 t2 =>
          let s2 := byteZ c2 in
          if negb (cont s2) then (RuneError, 1%nat) else
          if (sz <=? 3)%nat
          then (Z.lor (Z.lor (Z.shiftl (Z.land s0 0x0F) 12)
                             (Z.shiftl (low6 s1) 6)) (low6 s2), 3%nat) else
          match t2 with
          | EmptyString => (RuneError, 1%nat)
          | String c3 _ =>
            let s3 := byteZ c3 in
            if negb (cont s3) then (RuneError, 1%nat) else
            (Z.lor (Z.lor (Z.lor (Z.shiftl (Z.land s0 0x07) 18)
                                 (Z.shiftl (low6 s1) 12))
                          (Z.shiftl (low6 s2) 6)) (low6 s3), 4%nat)
          end
        end
      end
    end
  end.

Definition ValidRune (r : Z) : bool :=
  ((0 <=? r) && (r <? 0xD800)) || ((0xDFFF <? r) && (r <=? MaxRune)).

(** utf8.AppendRune: the UTF-8 bytes of [r]. *)
Definition EncodeRune (r : Z) : string :=
  let tail (sh : Z) := byte_of (Z.lor 0x80 (low6 (Z.shiftr r sh))) in
  if (0 <=? r) && (r <=? 0x7F) then str1 (byte_of r)
  else if (0 <=? r) && (r <=? 0x7FF)
  then String (byte_of (Z.lor 0xC0 (Z.shiftr r 6))) (str1 (tail 0))
  else if negb (ValidRune r)
  then String "239"%char (String "191"%char (str1 "189"%char))
  else if r <=? 0xFFFF
  then String (byte_of (Z.lor 0xE0 (Z.shiftr r 12)))
              (String (tail 6) (str1 (tail 0)))
  else String (byte_of (Z.lor 0xF0 (Z.shiftr r 18)))
              (String (tail 12) (String (tail 6) (str1 (tail 0)))).

(** The digits [lowerhex[r>>s & 0xF]] for s = 4*(n-1), ..., 4, 0. *)
Fixpoint hex_digits (n : nat) (r : Z) : string :=
  match n with
  | O => EmptyString
  | S k => String (lowerhex (Z.land (Z.shiftr r (4 * Z.of_nat k)) 0xF))
                  (hex_digits k r)
  end.

Section Quote.

(** strconv.IsPrint decides runes above 0xFF by tables of the Unicode
    data; they are not part of this repository and stay a parameter. *)
Variable isPrintTable : Z -> bool.

Definition IsPrint (r : Z) : bool :=
  if r <=? 0xFF then
    if (0x20 <=? r) && (r <=? 0x7E) then true
    else if (0xA1 <=? r) && (r <=? 0xFF) then negb (r =? 0xAD)
    else false
  else isPrintTable r.

(** strconv's appendEscapedRune with the double quote as quote, ASCIIonly and
    graphicOnly false. *)
Definition appendEscapedRune (r : Z) : string :=
  if (r =? byteZ dq) || (r =? byteZ backslash)
  then String backslash (str1 (byte_of r))
  else if IsPrint r then EncodeRune r
  else if r =? 7 then String backslash "a"
  else if r =? 8 then String backslash "b"
  else if r =? 12 then String backslash "f"
  else if r =? 10 then String backslash "n"
  else if r =? 13 then String backslash "r"
  else if r =? 9 then String backslash "t"
  else if r =? 11 then String backslash "v"
  else if (r <? 0x20) || (r =? 0x7F)
  then String backslash (String "x" (hex_digits 2 r))
  else if negb (ValidRune r)
  then String backslash (String "u" (hex_digits 4 RuneError))
  else if r <? 0x10000
  then String backslash (String "u" (hex_digits 4 r))
  else String backslash (String "U" (hex_digits 8 r)).

(** The loop of appendQuotedWith.  The Go loop advances by the width of
    the rune it decoded; here [skip] counts the bytes of that rune still
    to pass over. *)
Fixpoint quote_loop (skip : nat) (s : string) : string :=
  match s with
  | EmptyString => EmptyString
  | String c t =>
    match skip with
    | S k => quote_loop k t
    | O =>
      let '(r, width) :=
        if byteZ c <? RuneSelf then (byteZ c, 1%nat)
        else DecodeRuneInString s in
      (if (width =? 1)%nat && (r =? RuneError)
       then String backslash (String "x" (hex_digits 2 (byteZ c)))
       else appendEscapedRune r)
      +:+ quote_loop (width - 1) t
    end
  end.

Definition Quote (s : string) : string :=
  String dq (quote_loop 0 s +:+ str1 dq).

End Quote.

End Strconv.
Import Strconv.

(** ** The data send.go works on *)

Module Gomail.

(** A Go error, as far as this file looks at one: its rendered text.
    [errors.New] and [fmt.Errorf] build one from a text. *)
Record error : Type := errorString { Error : string }.

(** net/mail's Address. *)
Record mail_Address : Type := { Name : string; Address : string }.

(** Of a Message send.go reads the header, a Go map from a field name to
    the values of the field, and hands the message itself to the sender as
    its io.WriterTo. *)
Record Message : Type := { header : gmap string (list string) }.

(** [m.header[field]]: the nil slice when the key is absent. *)
Definition header_index (m : Message) (field : string) : list string :=
  default [] (header m !! field).

Definition skipRcptErr : string := "gomail: email sent with skipped recipients".

(** [errors.New(`gomail: invalid message, "From" field is absent`)] *)
Definition errFromAbsent : error :=
  errorString ("gomail: invalid message, " +:+ str1 dq +:+ "From"
               +:+ str1 dq +:+ " field is absent").

(** ** Envelope extraction *)

Section Envelope.

(** net/mail's ParseAddress and the tables of strconv.IsPrint belong to
    the Go library. *)
Variable mail_ParseAddress : string -> mail_Address + error.
Variable isPrintTable : Z -> bool.

(** [fmt.Errorf("gomail: invalid address %q: %v", field, err)] *)
Definition errInvalidAddress (field : string) (err : error) : error :=
  errorString ("gomail: invalid address " +:+ Quote isPrintTable field
               +:+ ": " +:+ Error err).

Definition parseAddress (field : string) : string * option error :=
  match mail_ParseAddress field with
  | inr err => (EmptyString, Some (errInvalidAddress field err))
  | inl addr => (Address addr, None)
  end.

(** The loop of addAddress over [range lst]: [rest] is what is left of
    the range, [lst] the slice itself (list in the source). *)
Fixpoint addAddress_range (rest lst : list string) (addr : string)
  : list string :=
  match rest with
  | [] => lst ++ [addr]
  | a :: rest' =>
    if String.eqb addr a then lst else addAddress_range rest' lst addr
  end.

Definition addAddress (lst : list string) (addr : string) : list string :=
  addAddress_range lst lst addr.

Definition getFrom (m : Message) : string * option error :=
  match header_index m "Sender" with
  | f0 :: _ => parseAddress f0
  | [] =>
    match header_index m "From" with
    | [] => (EmptyString, Some errFromAbsent)
    | f0 :: _ => parseAddress f0
    end
  end.

(** The inner loop of getRecipients, over the values of one field. *)
Fixpoint getRecipients_values (addresses lst : list string)
  : list string * option error :=
  match addresses with
  | [] => (lst, None)
  | a :: rest =>
    match parseAddress a with
    | (_, Some err) => ([], Some err)
    | (addr, None) => getRecipients_values rest (addAddress lst addr)
    end
  end.

(** The outer loop, over the field names. *)
Fixpoint getRecipients_fields (fields : list string) (m : Message)
         (lst : list string) : list string * option error :=
  match fields with
  | [] => (lst, None)
  | field :: rest =>
    match header m !! field with
    | Some addresses =>
      match getRecipients_values addresses lst with
      | (_, Some err) => ([], Some err)
      | (lst', None) => getRecipients_fields rest m lst'
      end
    | None => getRecipients_fields rest m lst
    end
  end.

(** The first loop of getRecipients only sizes the slice: the list starts
    empty with room for every value. *)
Definition getRecipients (m : Message) : list string * option error :=
  getRecipients_fields ["To"; "Cc"; "Bcc"] m [].

End Envelope.

(** The first loop of getRecipients: [n], the capacity the slice is made
    with.  A count of the values at hand, it stays far below the bound of
    int. *)
Fixpoint getRecipients_count (fields : list string) (m : Message) (n : nat)
  : nat :=
  match fields with
  | [] => n
  | field :: rest =>
    match header m !! field with
    | Some addresses => getRecipients_count rest m (n + length addresses)
    | None => getRecipients_count rest m n
    end
  end.

Definition getRecipients_capacity (m : Message) : nat :=
  getRecipients_count ["To"; "Cc"; "Bcc"] m 0.

(** ** Senders, and what a run leaves behind *)

(** What a Go call either gives back or fails to. *)
Inductive outcome (A : Type) : Type :=
| Returns (a : A)
| Panics.
Arguments Returns {A} a.
Arguments Panics {A}.

(** [err.Error()] on the nil interface value is a nil dereference. *)
Definition IsSkipRcptErr (err : option error) : outcome bool :=
  match err with
  | None => Panics
  | Some e => Returns (HasPrefix (Error e) skipRcptErr)
  end.

(** The calls of one run, in the order they were made. *)
Inductive event : Type :=
| EvGetFrom (m : Message)
| EvGetRecipients (m : Message)
| EvSkipErrRcpt
| EvSend (from : string) (to : list string) (m : Message)
| EvSkippableSend (from : string) (to : list string) (m : Message).

(** The state a run threads: that of the transport behind the Sender, and
    the calls made so far. *)
Record world (T : Type) : Type := World { transport : T; trace : list event }.
Arguments World {T} transport trace.
Arguments transport {T} w.
Arguments trace {T} w.

Definition M (T A : Type) : Type := world T -> A * world T.

Definition ret {T A : Type} (a : A) : M T A := fun w => (a, w).

Definition bind {T A B : Type} (c : M T A) (k : A -> M T B) : M T B :=
  fun w => let (a, w') := c w in k a w'.

Notation "x <- c ;; k" := (bind c (fun x => k))
  (at level 100, c at next level, right associativity).

(** A call that leaves the transport alone. *)
Definition pure_call {T A : Type} (ev : event) (a : A) : M T A :=
  fun w => (a, World (transport w) (trace w ++ [ev])).

(** A call into the transport. *)
Definition transport_call {T A : Type} (ev : event) (f : T -> A * T) : M T A :=
  fun w => let (a, t') := f (transport w) in (a, World t' (trace w ++ [ev])).

Section Orchestrator.

Variable mail_ParseAddress : string -> mail_Address + error.
Variable isPrintTable : Z -> bool.

(** RcptError and the two methods of RcptErrors (a slice of RcptError)
    that Send calls are declared in another file of the package. *)
Variable RcptError : Type.
Variable Rcpts : list RcptError -> list string.
Variable RcptErrors_Error : list RcptError -> string.

(** The state of the transport. *)
Variable T : Type.

(** The Sender interface. *)
Record Sender : Type := {
  Sender_Send : string -> list string -> Message -> T -> option error * T;
  Sender_SkippableSend :
    string -> list string -> Message -> T ->
    (list RcptError * option error) * T;
  Sender_SkipErrRcpt : T -> bool * T
}.

(** SendFunc, the function adapter, and its three methods. *)
Definition SendFunc : Type :=
  string -> list string -> Message -> T -> option error * T.

Definition SendFunc_Send (f : SendFunc) (from : string) (to : list string)
           (msg : Message) : T -> option error * T :=
  f from to msg.

Definition SendFunc_SkippableSend (f : SendFunc) (from : string)
           (to : list string) (msg : Message)
  : T -> (list RcptError * option error) * T :=
  fun t => let (err, t') := f from to msg t in (([], err), t').

Definition SendFunc_SkipErrRcpt (f : SendFunc) : T -> bool * T :=
  fun t => (false, t).

Definition SendFunc_Sender (f : SendFunc) : Sender :=
  {| Sender_Send := SendFunc_Send f;
     Sender_SkippableSend := SendFunc_SkippableSend f;
     Sender_SkipErrRcpt := SendFunc_SkipErrRcpt f |}.

(** [fmt.Errorf("gomail: could not send email %d: %v", i+1, err)] *)
Definition errCouldNotSend (pos : Z) (err : error) : error :=
  errorString ("gomail: could not send email " +:+ fmt_d pos
               +:+ ": " +:+ Error err).

(** [fmt.Errorf("%s: %v, error: %s", skipRcptErr, rcptErrs.Rcpts(),
    rcptErrs.Error())] *)
Definition errSkipped (rcptErrs : list RcptError) : error :=
  errorString (skipRcptErr +:+ ": " +:+ fmt_v_strings (Rcpts rcptErrs)
               +:+ ", error: " +:+ RcptErrors_Error rcptErrs).

Definition send (s : Sender) (m : Message)
  : M T (list RcptError * option error) :=
  r <- pure_call (EvGetFrom m) (getFrom mail_ParseAddress isPrintTable m) ;;
  let '(from, err) := r in
  match err with
  | Some e => ret ([], Some e)
  | None =>
    r <- pure_call (EvGetRecipients m)
                   (getRecipients mail_ParseAddress isPrintTable m) ;;
    let '(to, err) := r in
    match err with
    | Some e => ret ([], Some e)
    | None =>
      skip <- transport_call EvSkipErrRcpt (Sender_SkipErrRcpt s) ;;
      if (skip : bool)
      then transport_call (EvSkippableSend from to m)
                          (Sender_SkippableSend s from to m)
      else
        err <- transport_call (EvSend from to m) (Sender_Send s from to m) ;;
        match err with
        | Some e => ret ([], Some e)
        | None => ret ([], None)
        end
    end
  end.

(** The loop of Send from index [i] on, with the errors collected so
    far, and what follows the loop. *)
Fixpoint Send_loop (s : Sender) (i : Z) (msg : list Message)
         (rcptErrs : list RcptError) : M T (option error) :=
  match msg with
  | [] =>
    if (0 <? length rcptErrs)%nat
    then ret (Some (errSkipped rcptErrs))
    else ret None
  | m :: rest =>
    r <- send s m ;;
    let '(rcptErr, err) := r in
    match err with
    | Some e => ret (Some (errCouldNotSend (i + 1) e))
    | None =>
      Send_loop s (i + 1) rest
                (if (0 <? length rcptErr)%nat
                 then rcptErrs ++ rcptErr else rcptErrs)
    end
  end.

Definition Send (s : Sender) (msg : list Message) : M T (option error) :=
  Send_loop s 0 msg [].

(** [AllSent s msg w errs w']: started in [w], the messages [msg] are sent
    one after the other with no hard error, the per-recipient errors they
    come back with are [errs], in order, and the run ends in [w']. *)
Inductive AllSent (s : Sender)
  : list Message -> world T -> list RcptError -> world T -> Prop :=
| AllSent_nil (w : world T) : AllSent s [] w [] w
| AllSent_cons (m : Message) (rest : list Message) (w w1 w' : world T)
               (rcptErr errs : list RcptError) :
    send s m w = ((rcptErr, None), w1) ->
    AllSent s rest w1 errs w' ->
    AllSent s (m :: rest) w (rcptErr ++ errs) w'.

End Orchestrator.

Arguments Sender_Send {RcptError T} s from to m t : rename.
Arguments Sender_SkippableSend {RcptError T} s from to m t : rename.
Arguments Sender_SkipErrRcpt {RcptError T} s t : rename.
Arguments SendFunc_Send {T} f from to msg t : rename.
Arguments SendFunc_SkippableSend RcptError {T} f from to msg t : rename.
Arguments SendFunc_SkipErrRcpt {T} f t : rename.
Arguments SendFunc_Sender RcptError {T} f.
Arguments errSkipped {RcptError} Rcpts RcptErrors_Error rcptErrs.
Arguments send mail_ParseAddress isPrintTable {RcptError T} s m w : rename.
Arguments Send_loop mail_ParseAddress isPrintTable {RcptError} Rcpts
  RcptErrors_Error {T} s i msg rcptErrs w : rename.
Arguments Send mail_ParseAddress isPrintTable {RcptError} Rcpts
  RcptErrors_Error {T} s msg w : rename.
Arguments AllSent mail_ParseAddress isPrintTable {RcptError T} s msg w errs w'
  : rename.

End Gomail.
Import Gomail.

(** ** Vocabulary of the statements *)



(** Where [a] first stands in [l]; the length of [l] when it does not. *)
Fixpoint first_index (a : string) (l : list string) : nat :=
  match l with
  | [] => O
  | x :: rest => if String.eqb a x then O else S (first_index a rest)
  end.

(** A header field with no value to read. *)
Definition absent_or_empty (m : Message) (field : string) : Prop :=
  header m !! field = None \/ header m !! field = Some [].

(** The event is a call made for the message [m]; the query of the skip
    flag names no message. *)
Definition event_for (m : Message) (ev : event) : Prop :=
  match ev with
  | EvGetFrom m' | EvGetRecipients m' => m' = m
  | EvSend _ _ m' | EvSkippableSend _ _ m' => m' = m
  | EvSkipErrRcpt => True
  end.

(** How often the sender was asked for its skip flag. *)
Fixpoint flag_queries (tr : list event) : nat :=
  match tr with
  | [] => O
  | EvSkipErrRcpt :: rest => S (flag_queries rest)
  | _ :: rest => flag_queries rest
  end.

(** The messages handed to the transport, in the order of the calls. *)
Definition sent_messages (tr : list event) : list Message :=
  flat_map (fun ev => match ev with
                      | EvSend _ _ m | EvSkippableSend _ _ m => [m]
                      | _ => []
                      end) tr.

(** The values of the recipient fields, in the order getRecipients reads
    them. *)
Definition recipient_values (m : Message) : list string :=
  header_index m "To" ++ header_index m "Cc" ++ header_index m "Bcc".

(** ** A small world to run the code in

    The parameters above are filled in here for the worked examples. *)

Module Sample.

(** A stand-in for net/mail's parser: it takes a bare addr-spec, made of
    letters, digits, dots and hyphens around one at-sign, as net/mail
    does, and turns everything else down. *)
Definition atext (c : ascii) : bool :=
  let b := byteZ c in
  ((0x61 <=? b) && (b <=? 0x7A)) || ((0x41 <=? b) && (b <=? 0x5A))
  || ((0x30 <=? b) && (b <=? 0x39)) || (b =? 0x2E) || (b =? 0x2D).

Fixpoint atoms (s : string) : bool :=
  match s with
  | EmptyString => true
  | String c t => atext c && atoms t
  end.

Fixpoint addr_spec (seen : bool) (s : string) : bool :=
  match s with
  | EmptyString => false
  | String c t =>
    if Ascii.eqb c "@" then seen && negb (String.eqb t EmptyString) && atoms t
    else atext c && addr_spec true t
  end.

Definition ParseAddress (field : string) : mail_Address + error :=
  if addr_spec false field
  then inl {| Name := EmptyString; Address := field |}
  else inr (errorString "mail: no angle-addr").

Definition isPrintTable (r : Z) : bool := true.

(** Modelled from the spec: RcptError and the methods of RcptErrors, which
    send.go uses and another file declares.  An RcptError is a recipient
    with a cause; Rcpts lists the recipients in order; the rendering
    concatenates each RcptError's recipient and cause. *)
Record RcptError : Type := { recipient : string; cause : error }.

Definition Rcpts (e : list RcptError) : list string := map recipient e.

Definition RcptErrors_Error (e : list RcptError) : string :=
  foldr (fun r acc => recipient r +:+ Error (cause r) +:+ acc) EmptyString e.

(** Transports count the messages handed to them. *)
Definition accept_all : SendFunc nat :=
  fun _ _ _ n => (None, S n).

Definition refuse_all : SendFunc nat :=
  fun _ _ _ n => (Some (errorString "dial tcp: connection refused"), S n).

Definition unknown_user (r : string) : RcptError :=
  {| recipient := r; cause := errorString "550 user unknown" |}.

(** A transport with the skip flag set that cannot reach c@x.com. *)
Definition skipper : Sender RcptError nat :=
  {| Sender_Send := accept_all;
     Sender_SkippableSend := fun _ to _ n =>
       ((map unknown_user (filter (fun r => r = "c@x.com") to), None), S n);
     Sender_SkipErrRcpt := fun n => (true, n) |}.

(** The same, losing the connection on its second message. *)
Definition dropper : Sender RcptError nat :=
  {| Sender_Send := accept_all;
     Sender_SkippableSend := fun _ to _ n =>
       ((map unknown_user (filter (fun r => r = "c@x.com") to),
         if (n =? 1)%nat then Some (errorString "EOF") else None), S n);
     Sender_SkipErrRcpt := fun n => (true, n) |}.

Definition msg (fields : list (string * list string)) : Message :=
  {| header := list_to_map fields |}.

Definition letter : Message :=
  msg [("From", ["a@x.com"]); ("To", ["b@x.com"; "b@x.com"; "c@x.com"])].

Definition unsigned : Message := msg [("To", ["b@x.com"])].

Definition on_behalf : Message :=
  msg [("From", ["a@x.com"]); ("Sender", ["s@x.com"]); ("To", ["b@x.com"]);
       ("Cc", ["c@x.com"; "b@x.com"]); ("Bcc", ["d@x.com"; "c@x.com"])].

Definition bad : string := "Bad <>".

Definition start : world nat := World 0%nat [].

(** The calls send makes for [m] through a sender with the skip flag. *)
Definition skip_calls (m : Message) (from : string) (to : list string)
  : list event :=
  [EvGetFrom m; EvGetRecipients m; EvSkipErrRcpt; EvSkippableSend from to m].

Definition no_angle_addr : error := errorString "mail: no angle-addr".

(** [letter] with a note in the subject and one more reader in Bcc. *)
Definition letter_bcc : Message :=
  msg [("From", ["a@x.com"]); ("Subject", ["hello"]);
       ("To", ["b@x.com"; "b@x.com"; "c@x.com"]);
       ("Bcc", ["c@x.com"; "e@x.com"])].

(** [letter] under another subject, with an empty Cc. *)
Definition letter_again : Message :=
  msg [("From", ["a@x.com"; "z@x.com"]); ("Subject", ["again"]); ("Cc", []);
       ("To", ["b@x.com"; "b@x.com"; "c@x.com"])].

(** A Sender field that does not parse, beside a From that does. *)
Definition bad_sender : Message :=
  msg [("From", ["a@x.com"]); ("Sender", [bad]); ("To", ["b@x.com"])].

(** A recipient that does not parse. *)
Definition bad_recipient : Message :=
  msg [("From", ["a@x.com"]); ("To", ["b@x.com"; bad])].

Definition Send' {T : Type} (s : Sender RcptError T) (msg : list Message)
  : M T (option error) :=
  Send ParseAddress isPrintTable Rcpts RcptErrors_Error s msg.

End Sample.

(** * Properties *)

(** ** Strings *)

Lemma append_cons (x : ascii) (a b : string) :
  String x a +:+ b = String x (a +:+ b).
Proof. reflexivity. Qed.

Lemma append_nil_l (a : string) : EmptyString +:+ a = a.
Proof. reflexivity. Qed.

Lemma append_assoc (a b c : string) : (a +:+ b) +:+ c = a +:+ (b +:+ c).
Proof.
  induction a as [|x a IH]; [reflexivity |].
  rewrite !append_cons. f_equal. exact IH.
Qed.

Lemma append_nil_r (a : string) : a +:+ EmptyString = a.
Proof.
  induction a as [|x a IH]; [reflexivity |].
  rewrite append_cons. f_equal. exact IH.
Qed.

Lemma HasPrefix_append (p s : string) : HasPrefix (p +:+ s) p = true.
Proof.
  unfold HasPrefix. induction p as [|x p IH].
  - now destruct s.
  - rewrite append_cons. simpl.
    destruct (ascii_dec x x); [exact IH | congruence].
Qed.

Lemma HasPrefix_split (s p : string) :
  HasPrefix s p = true -> exists post, s = p +:+ post.
Proof.
  unfold HasPrefix. revert s. induction p as [|x p IH]; intros s H.
  - exists s. reflexivity.
  - destruct s as [|y s]; simpl in H; [discriminate |].
    destruct (ascii_dec x y) as [->|]; [| discriminate].
    destruct (IH s H) as [post ->]. exists post. reflexivity.
Qed.

Lemma Contains_cons (x : ascii) (t sub : string) :
  Contains (String x t) sub = HasPrefix (String x t) sub || Contains t sub.
Proof. reflexivity. Qed.

Lemma Contains_nil (sub : string) :
  Contains EmptyString sub = HasPrefix EmptyString sub.
Proof. unfold Contains. apply orb_false_r. Qed.

Lemma Contains_here (s p : string) : HasPrefix s p = true -> Contains s p = true.
Proof.
  intros H. destruct s; [now rewrite Contains_nil |].
  rewrite Contains_cons, H. reflexivity.
Qed.

Lemma Contains_append (pre sub post : string) :
  Contains (pre +:+ sub +:+ post) sub = true.
Proof.
  induction pre as [|x pre IH].
  - rewrite append_nil_l. apply Contains_here, HasPrefix_append.
  - rewrite append_cons, Contains_cons, IH. apply orb_true_r.
Qed.

Lemma Contains_split (s sub : string) :
  Contains s sub = true -> exists pre post, s = pre +:+ sub +:+ post.
Proof.
  induction s as [|x s IH]; intros H.
  - rewrite Contains_nil in H. destruct (HasPrefix_split _ _ H) as [post E].
    exists EmptyString, post. exact E.
  - rewrite Contains_cons in H. apply orb_true_iff in H as [H|H].
    + destruct (HasPrefix_split _ _ H) as [post E].
      exists EmptyString, post. exact E.
    + destruct (IH H) as (pre & post & ->).
      exists (String x pre), post. reflexivity.
Qed.

Lemma Contains_trans (s a b : string) :
  Contains s a = true -> Contains a b = true -> Contains s b = true.
Proof.
  intros Hs Ha.
  destruct (Contains_split _ _ Hs) as (p1 & q1 & ->).
  destruct (Contains_split _ _ Ha) as (p2 & q2 & ->).
  rewrite !append_assoc, <- (append_assoc p1 p2).
  apply Contains_append.
Qed.

Lemma Contains_tail (pre sub : string) : Contains (pre +:+ sub) sub = true.
Proof.
  rewrite <- (append_nil_r sub) at 1. apply Contains_append.
Qed.

Lemma Contains_join_space (l : list string) (x : string) :
  In x l -> Contains (join_space l) x = true.
Proof.
  induction l as [|y l IH]; intros H; [destruct H |].
  destruct l as [|z l].
  - destruct H as [->|[]]. apply Contains_here.
    rewrite <- (append_nil_r x) at 1. apply HasPrefix_append.
  - change (join_space (y :: z :: l)) with (y +:+ " " +:+ join_space (z :: l)).
    destruct H as [->|H].
    + apply Contains_here, HasPrefix_append.
    + apply Contains_trans with (join_space (z :: l)); [| now apply IH].
      rewrite <- append_assoc. apply Contains_tail.
Qed.

Lemma Contains_fmt_v_strings (l : list string) (x : string) :
  In x l -> Contains (fmt_v_strings l) x = true.
Proof.
  intros H. apply Contains_trans with (join_space l).
  - apply Contains_append.
  - now apply Contains_join_space.
Qed.

(** ** addAddress keeps first occurrences *)

Lemma addAddress_range_spec (rest lst : list string) (addr : string) :
  addAddress_range rest lst addr
  = if bool_decide (addr ∈ rest) then lst else lst ++ [addr].
Proof.
  induction rest as [|a rest IH]; cbn [addAddress_range].
  - rewrite bool_decide_eq_false_2; [reflexivity | apply not_elem_of_nil].
  - destruct (String.eqb_spec addr a) as [->|Hne].
    + rewrite bool_decide_eq_true_2; [reflexivity | apply list_elem_of_here].
    + rewrite IH. apply (f_equal (fun b : bool => if b then lst else lst ++ [addr])).
      apply bool_decide_ext. rewrite elem_of_cons. tauto.
Qed.

Lemma addAddress_spec (lst : list string) (addr : string) :
  addAddress lst addr = if bool_decide (addr ∈ lst) then lst else lst ++ [addr].
Proof. apply addAddress_range_spec. Qed.

Lemma first_index_lt (a : string) (l : list string) :
  a ∈ l -> (first_index a l < length l)%nat.
Proof.
  induction l as [|x l IH]; intros H; [now apply not_elem_of_nil in H |].
  simpl. destruct (String.eqb_spec a x) as [->|Hne]; [lia |].
  apply elem_of_cons in H as [H|H]; [contradiction |].
  specialize (IH H). lia.
Qed.

Lemma first_index_app_l (a : string) (l r : list string) :
  a ∈ l -> first_index a (l ++ r) = first_index a l.
Proof.
  induction l as [|x l IH]; intros H; [now apply not_elem_of_nil in H |].
  simpl. destruct (String.eqb_spec a x) as [->|Hne]; [reflexivity |].
  apply elem_of_cons in H as [H|H]; [contradiction |].
  now rewrite (IH H).
Qed.

Lemma first_index_app_r (a : string) (l r : list string) :
  a ∉ l -> first_index a (l ++ r) = (length l + first_index a r)%nat.
Proof.
  induction l as [|x l IH]; intros H; [reflexivity |].
  simpl. apply not_elem_of_cons in H as [Hne H].
  destruct (String.eqb_spec a x) as [->|_]; [contradiction |].
  now rewrite (IH H).
Qed.

(** After any run of addAddress from the empty list over [xs]: no
    duplicate, the members of [xs], in the order they first stand in [xs]. *)
Lemma fold_addAddress_invariant (xs : list string) :
  let lst := fold_left addAddress xs [] in
  NoDup lst /\ (forall a, a ∈ lst <-> a ∈ xs) /\
  forall i j a b, lst !! i = Some a -> lst !! j = Some b -> (i < j)%nat ->
                  (first_index a xs < first_index b xs)%nat.
Proof.
  induction xs as [|x xs IH] using rev_ind.
  - simpl. split; [constructor |]. split; [tauto |].
    intros i j a b H. now rewrite lookup_nil in H.
  - rewrite fold_left_app. simpl. destruct IH as (Hnd & Hin & Hord).
    set (lst := fold_left addAddress xs []) in *.
    rewrite addAddress_spec. destruct (bool_decide_reflect (x ∈ lst)) as [Hx|Hx].
    + split; [exact Hnd |]. split.
      * intros a. rewrite elem_of_app, list_elem_of_singleton, Hin.
        split; [tauto |]. intros [H| ->]; [exact H | now apply Hin].
      * intros i j a b Ha Hb Hij.
        rewrite !first_index_app_l;
          [now apply (Hord i j) | |]; apply Hin;
          eapply list_elem_of_lookup_2; eassumption.
    + split; [| split].
      * apply NoDup_app. split; [exact Hnd |]. split; [| apply NoDup_singleton].
        intros a Ha Hax. apply list_elem_of_singleton in Hax. now subst.
      * intros a. rewrite !elem_of_app, Hin. reflexivity.
      * intros i j a b Ha Hb Hij.
        assert (Hi : (i < length lst)%nat).
        { apply lookup_lt_Some in Hb. rewrite length_app in Hb. simpl in Hb. lia. }
        rewrite lookup_app_l in Ha by exact Hi.
        assert (Hain : a ∈ xs) by (apply Hin; eapply list_elem_of_lookup_2; eassumption).
        rewrite (first_index_app_l a) by exact Hain.
        destruct (decide (j < length lst)%nat) as [Hj|Hj].
        -- rewrite lookup_app_l in Hb by exact Hj.
           rewrite first_index_app_l;
             [now apply (Hord i j) | apply Hin; eapply list_elem_of_lookup_2; eassumption].
        -- rewrite lookup_app_r in Hb by lia.
           apply list_lookup_singleton_Some in Hb as [_ <-].
           rewrite first_index_app_r by (now rewrite <- Hin).
           pose proof (first_index_lt a xs Hain). lia.
Qed.

(** ** Envelope extraction *)

Section EnvelopeFacts.

Variable mail_ParseAddress : string -> mail_Address + error.
Variable isPrintTable : Z -> bool.

Local Abbreviation parseAddress := (parseAddress mail_ParseAddress isPrintTable).
Local Abbreviation getFrom := (getFrom mail_ParseAddress isPrintTable).
Local Abbreviation getRecipients := (getRecipients mail_ParseAddress isPrintTable).
Local Abbreviation getRecipients_values :=
  (getRecipients_values mail_ParseAddress isPrintTable).
Local Abbreviation getRecipients_fields :=
  (getRecipients_fields mail_ParseAddress isPrintTable).
Local Abbreviation errInvalidAddress := (errInvalidAddress isPrintTable).
Local Abbreviation Quote := (Quote isPrintTable).

(** The value parses, and the address it parses to. *)
Local Abbreviation parses v := (exists a, mail_ParseAddress v = inl a).
Local Abbreviation canonical v := (fst (parseAddress v)).

Lemma header_index_absent_or_empty (m : Message) (field : string) :
  absent_or_empty m field <-> header_index m field = [].
Proof.
  unfold absent_or_empty, header_index.
  destruct (header m !! field) as [[|v vs]|]; simpl; split; intros H;
    try reflexivity; try discriminate; auto.
  destruct H; discriminate.
Qed.

(** C6. When the Sender field has a value, the envelope-from is what
    parseAddress makes of the first value of Sender, whatever the From
    field holds. *)
Theorem getFrom_Sender_wins (m : Message) (s0 : string) (ss : list string) :
  header m !! "Sender" = Some (s0 :: ss) ->
  getFrom m = parseAddress s0.
Proof.
  intros H. unfold Gomail.getFrom, header_index. rewrite H. reflexivity.
Qed.

(** C7. When the Sender field is absent or empty, getFrom reads the From
    field: it parses its first value, and when From is absent or empty too
    it fails with the error that says the From field is absent. *)
Theorem getFrom_fallback (m : Message) :
  absent_or_empty m "Sender" ->
  (forall f0 fs, header m !! "From" = Some (f0 :: fs) ->
                 getFrom m = parseAddress f0) /\
  (absent_or_empty m "From" ->
   getFrom m = (EmptyString, Some errFromAbsent)) /\
  Error errFromAbsent
  = "gomail: invalid message, " +:+ str1 dq +:+ "From" +:+ str1 dq
    +:+ " field is absent".
Proof.
  intros HS. apply header_index_absent_or_empty in HS.
  unfold Gomail.getFrom. rewrite HS. split; [| split].
  - intros f0 fs HF. unfold header_index. rewrite HF. reflexivity.
  - intros HF. apply header_index_absent_or_empty in HF. rewrite HF.
    reflexivity.
  - reflexivity.
Qed.

(** *** What strconv.Quote does to a plain value *)




(** *** The loops of getRecipients *)

Lemma parseAddress_ok (v : string) (a : mail_Address) :
  mail_ParseAddress v = inl a -> parseAddress v = (Address a, None).
Proof. intros H. unfold Gomail.parseAddress. now rewrite H. Qed.

Lemma parseAddress_fail (v : string) (err : error) :
  mail_ParseAddress v = inr err ->
  parseAddress v = (EmptyString, Some (errInvalidAddress v err)).
Proof. intros H. unfold Gomail.parseAddress. now rewrite H. Qed.

Lemma getRecipients_values_app (xs ys lst : list string) :
  getRecipients_values (xs ++ ys) lst
  = match getRecipients_values xs lst with
    | (_, Some err) => ([], Some err)
    | (lst', None) => getRecipients_values ys lst'
    end.
Proof.
  revert lst. induction xs as [|x xs IH]; intros lst; [reflexivity |].
  simpl. destruct (parseAddress x) as [addr [err|]]; [reflexivity | apply IH].
Qed.

Lemma getRecipients_fields_flat (fields : list string) (m : Message)
      (lst : list string) :
  getRecipients_fields fields m lst
  = getRecipients_values (flat_map (header_index m) fields) lst.
Proof.
  revert lst. induction fields as [|f fields IH]; intros lst; [reflexivity |].
  simpl. rewrite getRecipients_values_app. unfold header_index at 1.
  destruct (header m !! f) as [addresses|]; simpl; [| apply IH].
  destruct (getRecipients_values addresses lst) as [lst' [err|]] eqn:E.
  - reflexivity.
  - apply IH.
Qed.

Lemma getRecipients_flat (m : Message) :
  getRecipients m = getRecipients_values (recipient_values m) [].
Proof.
  unfold Gomail.getRecipients. rewrite getRecipients_fields_flat.
  unfold recipient_values. simpl. now rewrite app_nil_r.
Qed.

Lemma getRecipients_values_ok (xs lst : list string) :
  Forall (fun v => parses v) xs ->
  getRecipients_values xs lst
  = (fold_left addAddress (map (fun v => canonical v) xs) lst, None).
Proof.
  intros H. revert lst. induction H as [|x xs [a Hx] _ IH]; intros lst;
    [reflexivity |].
  simpl. rewrite (parseAddress_ok x a Hx). simpl. apply IH.
Qed.



(** C5. When every value of To, Cc and Bcc parses, getRecipients returns
    a list with no duplicate, whose members are the addresses the values
    parse to, and which lists them in the order of their first occurrence
    in To, then Cc, then Bcc. *)
Theorem getRecipients_dedup (m : Message) :
  Forall (fun v => parses v) (recipient_values m) ->
  let addrs := map (fun v => canonical v) (recipient_values m) in
  exists lst,
    getRecipients m = (lst, None) /\ NoDup lst /\
    (forall a, a ∈ lst <-> a ∈ addrs) /\
    forall i j a b, lst !! i = Some a -> lst !! j = Some b ->
      ((i < j)%nat <-> (first_index a addrs < first_index b addrs)%nat).
Proof.
  intros H addrs. exists (fold_left addAddress addrs []).
  destruct (fold_addAddress_invariant addrs) as (Hnd & Hin & Hord).
  split; [| split; [exact Hnd | split; [exact Hin |]]].
  - rewrite getRecipients_flat. now apply getRecipients_values_ok.
  - intros i j a b Ha Hb. split; [now apply Hord |].
    intros Hlt. destruct (lt_eq_lt_dec i j) as [[Hij|Hij]|Hij].
    + exact Hij.
    + subst j. rewrite Ha in Hb. injection Hb as ->. lia.
    + pose proof (Hord j i b a Hb Ha Hij). lia.
Qed.

End EnvelopeFacts.

(** ** The batch driver *)

Section SendFacts.

Variable mail_ParseAddress : string -> mail_Address + error.
Variable isPrintTable : Z -> bool.
Variable RcptError : Type.
Variable Rcpts : list RcptError -> list string.
Variable RcptErrors_Error : list RcptError -> string.
Variable T : Type.

Local Abbreviation getFrom := (getFrom mail_ParseAddress isPrintTable).
Local Abbreviation getRecipients := (getRecipients mail_ParseAddress isPrintTable).
Local Abbreviation Sender := (Sender RcptError T).
Local Abbreviation send := (send mail_ParseAddress isPrintTable).
Local Abbreviation Send_loop :=
  (Send_loop mail_ParseAddress isPrintTable Rcpts RcptErrors_Error).
Local Abbreviation Send :=
  (Send mail_ParseAddress isPrintTable Rcpts RcptErrors_Error).
Local Abbreviation AllSent := (AllSent mail_ParseAddress isPrintTable).
Local Abbreviation errSkipped := (errSkipped Rcpts RcptErrors_Error).

Implicit Types (s : Sender) (m : Message) (w : world T) (i : Z).
Implicit Types (msg pre post rest : list Message).
Implicit Types (rcptErr rcptErrs errs : list RcptError) (cause : error).

Lemma append_if_any rcptErrs rcptErr :
  (if (0 <? length rcptErr)%nat then rcptErrs ++ rcptErr else rcptErrs)
  = rcptErrs ++ rcptErr.
Proof. destruct rcptErr; simpl; [now rewrite app_nil_r | reflexivity]. Qed.

Lemma Send_loop_nil s i rcptErrs w :
  Send_loop s i [] rcptErrs w
  = (match rcptErrs with [] => None | _ => Some (errSkipped rcptErrs) end, w).
Proof. destruct rcptErrs; reflexivity. Qed.

Lemma Send_loop_sent s i m rest rcptErrs w rcptErr w1 :
  send s m w = ((rcptErr, None), w1) ->
  Send_loop s i (m :: rest) rcptErrs w
  = Send_loop s (i + 1) rest (rcptErrs ++ rcptErr) w1.
Proof.
  intros H. cbn [Gomail.Send_loop]. unfold bind at 1. rewrite H.
  now rewrite append_if_any.
Qed.

Lemma Send_loop_hard s i m rest rcptErrs w rcptErr cause w1 :
  send s m w = ((rcptErr, Some cause), w1) ->
  Send_loop s i (m :: rest) rcptErrs w
  = (Some (errCouldNotSend (i + 1) cause), w1).
Proof.
  intros H. cbn [Gomail.Send_loop]. unfold bind at 1. rewrite H. reflexivity.
Qed.

Lemma Send_loop_AllSent s msg w errs w1 :
  AllSent s msg w errs w1 ->
  forall i rest rcptErrs,
    Send_loop s i (msg ++ rest) rcptErrs w
    = Send_loop s (i + Z.of_nat (length msg)) rest (rcptErrs ++ errs) w1.
Proof.
  induction 1 as [w|m tl w w1 w' rcptErr errs Hm _ IH]; intros i rest rcptErrs.
  - simpl. now rewrite Z.add_0_r, app_nil_r.
  - rewrite <- app_comm_cons, (Send_loop_sent _ _ _ _ _ _ _ _ Hm), IH.
    rewrite app_assoc. f_equal. simpl length. lia.
Qed.

(** Every error Send returns is one of its two own. *)
Lemma Send_loop_errors s msg :
  forall i rcptErrs w,
    match fst (Send_loop s i msg rcptErrs w) with
    | None => True
    | Some e =>
      (exists errs, errs <> [] /\ e = errSkipped errs)
      \/ (exists pos cause, e = errCouldNotSend pos cause)
    end.
Proof.
  induction msg as [|m rest IH]; intros i rcptErrs w.
  - rewrite Send_loop_nil. destruct rcptErrs as [|r rs]; simpl; [exact I |].
    left. exists (r :: rs). split; [discriminate | reflexivity].
  - destruct (send s m w) as [[rcptErr [cause|]] w1] eqn:E.
    + rewrite (Send_loop_hard _ _ _ _ _ _ _ _ _ E). simpl. right. eauto.
    + rewrite (Send_loop_sent _ _ _ _ _ _ _ _ E). apply IH.
Qed.

(** What one message does when its envelope is there. *)
Lemma send_enveloped s m w from to :
  getFrom m = (from, None) ->
  getRecipients m = (to, None) ->
  send s m w
  = let calls := trace w ++ [EvGetFrom m; EvGetRecipients m; EvSkipErrRcpt] in
    let (skip, t1) := Sender_SkipErrRcpt s (transport w) in
    if skip
    then let (r, t2) := Sender_SkippableSend s from to m t1 in
         (r, World t2 (calls ++ [EvSkippableSend from to m]))
    else let (err, t2) := Sender_Send s from to m t1 in
         (([], err), World t2 (calls ++ [EvSend from to m])).
Proof.
  intros Hf Hr. unfold Gomail.send, bind, pure_call, transport_call, ret.
  rewrite Hf, Hr. cbn [transport trace].
  destruct (Sender_SkipErrRcpt s (transport w)) as [[] t1];
    cbn [transport trace].
  - destruct (Sender_SkippableSend s from to m t1) as [r t2].
    rewrite <- !app_assoc. reflexivity.
  - destruct (Sender_Send s from to m t1) as [[e|] t2];
      rewrite <- !app_assoc; reflexivity.
Qed.

(** Whatever comes of it, sending [m] only adds calls made for [m]. *)
Lemma send_trace s m w (r : list RcptError * option error) (w2 : world T) :
  send s m w = (r, w2) ->
  exists evs, trace w2 = trace w ++ evs /\ Forall (event_for m) evs.
Proof.
  unfold Gomail.send, bind, pure_call, transport_call, ret.
  destruct (getFrom m) as [from [e|]]; cbn [transport trace].
  { intros [= _ <-]. exists [EvGetFrom m]. split; [reflexivity |].
    repeat constructor. }
  destruct (getRecipients m) as [to [e|]]; cbn [transport trace].
  { intros [= _ <-]. exists [EvGetFrom m; EvGetRecipients m].
    cbn [trace]. rewrite <- app_assoc. split; [reflexivity |].
    repeat constructor. }
  destruct (Sender_SkipErrRcpt s (transport w)) as [[] t1];
    cbn [transport trace].
  - destruct (Sender_SkippableSend s from to m t1) as [r' t2].
    intros [= _ <-].
    exists [EvGetFrom m; EvGetRecipients m; EvSkipErrRcpt;
            EvSkippableSend from to m].
    cbn [trace]. rewrite <- !app_assoc. split; [reflexivity |].
    repeat constructor.
  - destruct (Sender_Send s from to m t1) as [[e|] t2]; intros [= _ <-];
      exists [EvGetFrom m; EvGetRecipients m; EvSkipErrRcpt;
              EvSend from to m];
      cbn [trace]; rewrite <- !app_assoc; (split; [reflexivity |]);
      repeat constructor.
Qed.

Lemma Send_aborts s pre m rest w errs w1 rcptErr cause (w2 : world T) :
  AllSent s pre w errs w1 ->
  send s m w1 = ((rcptErr, Some cause), w2) ->
  Send s (pre ++ m :: rest) w
  = (Some (errCouldNotSend (Z.of_nat (length pre) + 1) cause), w2).
Proof.
  intros Hpre Hm. unfold Gomail.Send.
  rewrite (Send_loop_AllSent s pre w errs w1 Hpre).
  now rewrite (Send_loop_hard _ _ _ _ _ _ _ _ _ Hm).
Qed.

Lemma errSkipped_prefix errs :
  HasPrefix (Error (errSkipped errs)) skipRcptErr = true.
Proof. apply HasPrefix_append. Qed.

(** C9. The function adapter never sets the skip flag, and its
    SkippableSend gives back what the wrapped function returns as the hard
    error, with no per-recipient error; the transport is left as the
    function left it. *)
Theorem SendFunc_adapter (f : SendFunc T) :
  (forall t, Sender_SkipErrRcpt (SendFunc_Sender RcptError f) t = (false, t)) /\
  (forall from to m t,
      Sender_SkippableSend (SendFunc_Sender RcptError f) from to m t
      = (([], fst (f from to m t)), snd (f from to m t))) /\
  (forall from to m t,
      Sender_Send (SendFunc_Sender RcptError f) from to m t = f from to m t).
Proof.
  split; [reflexivity |]. split; [| reflexivity].
  intros from to m t. simpl. unfold Gomail.SendFunc_SkippableSend.
  now destruct (f from to m t).
Qed.


(** C1. When every message of a batch is sent with no hard error, Send
    returns nil if no per-recipient error came back, and otherwise one
    error whose text starts with the skip prefix and holds the rendered
    list of the affected recipients, each of these recipients, and the
    rendering of all the per-recipient errors of the batch. *)
Theorem Send_all_sent s msg w errs w' :
  AllSent s msg w errs w' ->
  (errs = [] -> Send s msg w = (None, w')) /\
  (errs <> [] ->
   let e := errSkipped errs in
   Send s msg w = (Some e, w') /\
   Error e = skipRcptErr +:+ ": " +:+ fmt_v_strings (Rcpts errs)
             +:+ ", error: " +:+ RcptErrors_Error errs /\
   HasPrefix (Error e) skipRcptErr = true /\
   Contains (Error e) (fmt_v_strings (Rcpts errs)) = true /\
   (forall r, In r (Rcpts errs) -> Contains (Error e) r = true) /\
   Contains (Error e) (RcptErrors_Error errs) = true).
Proof.
  intros H.
  assert (E : Send s msg w
              = (match errs with [] => None | _ => Some (errSkipped errs) end, w')).
  { unfold Gomail.Send.
    rewrite <- (app_nil_r msg), (Send_loop_AllSent s msg w errs w' H).
    apply Send_loop_nil. }
  split; [intros -> ; exact E |].
  intros Hne e. destruct errs as [|r0 rs]; [contradiction |].
  assert (Hlist : Contains (Error e) (fmt_v_strings (Rcpts (r0 :: rs))) = true).
  { unfold e, Gomail.errSkipped. cbn [Error].
    rewrite <- (append_assoc skipRcptErr). apply Contains_append. }
  split; [exact E |]. split; [reflexivity |].
  split; [apply HasPrefix_append |]. split; [exact Hlist |]. split.
  - intros r Hr. apply Contains_trans with (fmt_v_strings (Rcpts (r0 :: rs)));
      [exact Hlist | now apply Contains_fmt_v_strings].
  - unfold e, Gomail.errSkipped. cbn [Error].
    rewrite <- !append_assoc. apply Contains_tail.
Qed.

(** C4. When the messages before [m] are sent with no hard error and
    sending [m] fails hard with [cause], Send returns the error that names
    the position of [m], counted from one, and holds the text of [cause];
    the run ends in the state in which the sending of [m] ended, its last
    calls being calls made for [m], and the messages after [m] change
    nothing. *)
Theorem Send_fail_fast s pre m post w errs w1 rcptErr cause (w2 : world T) :
  AllSent s pre w errs w1 ->
  send s m w1 = ((rcptErr, Some cause), w2) ->
  let pos := Z.of_nat (length pre) + 1 in
  let e := errCouldNotSend pos cause in
  Send s (pre ++ m :: post) w = (Some e, w2) /\
  Error e = "gomail: could not send email " +:+ fmt_d pos
            +:+ ": " +:+ Error cause /\
  Contains (Error e) (fmt_d pos) = true /\
  Contains (Error e) (Error cause) = true /\
  (exists evs, trace (snd (Send s (pre ++ m :: post) w)) = trace w1 ++ evs
               /\ Forall (event_for m) evs) /\
  Send s (pre ++ m :: post) w = Send s (pre ++ [m]) w.
Proof.
  intros Hpre Hm pos e.
  assert (E : forall rest, Send s (pre ++ m :: rest) w = (Some e, w2))
    by (intros rest; now apply Send_aborts with errs w1 rcptErr).
  split; [apply E |]. split; [reflexivity |]. split; [apply Contains_append |].
  split; [| split; [| now rewrite !E]].
  - unfold e, Gomail.errCouldNotSend. cbn [Error].
    rewrite <- !append_assoc. apply Contains_tail.
  - rewrite E. cbn [snd]. now apply send_trace with s (rcptErr, Some cause).
Qed.

(** C10. When the messages before [m] are sent with no hard error, with
    whatever per-recipient errors, and SkippableSend fails hard on [m],
    Send returns the error with the position of [m] and the cause: it is
    made of these two alone, IsSkipRcptErr turns it down, and it is no
    error of the skipped recipients. *)
Theorem Send_hard_error_drops_rcptErrs
        s pre m post w errs w1 from to (t1 t2 : T) rcptErr cause :
  AllSent s pre w errs w1 ->
  getFrom m = (from, None) ->
  getRecipients m = (to, None) ->
  Sender_SkipErrRcpt s (transport w1) = (true, t1) ->
  Sender_SkippableSend s from to m t1 = ((rcptErr, Some cause), t2) ->
  let e := errCouldNotSend (Z.of_nat (length pre) + 1) cause in
  fst (Send s (pre ++ m :: post) w) = Some e /\
  transport (snd (Send s (pre ++ m :: post) w)) = t2 /\
  IsSkipRcptErr (Some e) = Returns false /\
  (forall errs', e <> errSkipped errs').
Proof.
  intros Hpre Hf Hr Hs Hc e.
  pose proof (send_enveloped s m w1 from to Hf Hr) as E.
  rewrite Hs, Hc in E.
  rewrite (Send_aborts s pre m post w errs w1 rcptErr cause _ Hpre E).
  split; [reflexivity |]. split; [reflexivity |]. split; [reflexivity |].
  intros errs' Heq. pose proof (errSkipped_prefix errs') as Hp.
  rewrite <- Heq in Hp. discriminate Hp.
Qed.

(** C2, as the code has it.  On an error that is there, IsSkipRcptErr says
    whether its text starts with the skip prefix: yes for the error Send
    makes of skipped recipients, no for the error Send makes of a hard
    failure, and Send returns no other error.  On nil it does not answer:
    it panics. *)
Theorem IsSkipRcptErr_spec :
  (forall e : error,
      IsSkipRcptErr (Some e) = Returns (HasPrefix (Error e) skipRcptErr)) /\
  (forall errs, IsSkipRcptErr (Some (errSkipped errs)) = Returns true) /\
  (forall (pos : Z) cause,
      IsSkipRcptErr (Some (errCouldNotSend pos cause)) = Returns false) /\
  (forall s msg w,
      match fst (Send s msg w) with
      | None => True
      | Some e =>
        (exists errs, errs <> [] /\ e = errSkipped errs)
        \/ (exists pos cause, e = errCouldNotSend pos cause)
      end) /\
  IsSkipRcptErr None = Panics.
Proof.
  split; [reflexivity |]. split.
  - intros errs. unfold IsSkipRcptErr. now rewrite errSkipped_prefix.
  - split; [reflexivity |]. split; [| reflexivity].
    intros s msg w. apply Send_loop_errors.
Qed.

End SendFacts.

(** * More of send.go *)

(** ** addAddress *)

(** X1. addAddress only ever appends: the list it is given is a prefix of
    the list it returns, which holds the address and is at most one
    longer; adding the same address again changes nothing. *)
Theorem addAddress_keeps (lst : list string) (addr : string) :
  lst `prefix_of` addAddress lst addr /\
  addr ∈ addAddress lst addr /\
  (length (addAddress lst addr) <= S (length lst))%nat /\
  addAddress (addAddress lst addr) addr = addAddress lst addr.
Proof.
  rewrite !addAddress_spec.
  destruct (bool_decide_reflect (addr ∈ lst)) as [H|H].
  - rewrite bool_decide_eq_true_2 by exact H.
    split; [reflexivity |]. split; [exact H |]. split; [lia | reflexivity].
  - rewrite bool_decide_eq_true_2 by (apply elem_of_app; right; constructor).
    split; [now exists [addr] |]. split; [apply elem_of_app; right; constructor |].
    split; [| reflexivity]. rewrite length_app. simpl. lia.
Qed.

(** X2. addAddress keeps a list free of duplicates free of duplicates. *)
Theorem addAddress_NoDup (lst : list string) (addr : string) :
  NoDup lst -> NoDup (addAddress lst addr).
Proof.
  intros H. rewrite addAddress_spec.
  destruct (bool_decide_reflect (addr ∈ lst)) as [Hin|Hin]; [exact H |].
  apply NoDup_app. split; [exact H |]. split; [| apply NoDup_singleton].
  intros a Ha Hx. apply list_elem_of_singleton in Hx. now subst.
Qed.

(** ** getRecipients and getFrom *)

Section EnvelopeMore.

Variable mail_ParseAddress : string -> mail_Address + error.
Variable isPrintTable : Z -> bool.

Local Abbreviation parseAddress := (parseAddress mail_ParseAddress isPrintTable).
Local Abbreviation getFrom := (getFrom mail_ParseAddress isPrintTable).
Local Abbreviation getRecipients := (getRecipients mail_ParseAddress isPrintTable).
Local Abbreviation getRecipients_values :=
  (getRecipients_values mail_ParseAddress isPrintTable).
Local Abbreviation errInvalidAddress := (errInvalidAddress isPrintTable).
Local Abbreviation parses v := (exists a, mail_ParseAddress v = inl a).
Local Abbreviation canonical v := (fst (parseAddress v)).

Lemma getRecipients_values_cases (xs lst : list string) :
  (Forall (fun v => parses v) xs /\
   exists lst', getRecipients_values xs lst = (lst', None))
  \/ (exists pre v post err,
         xs = pre ++ v :: post /\ Forall (fun v => parses v) pre /\
         mail_ParseAddress v = inr err /\
         getRecipients_values xs lst = ([], Some (errInvalidAddress v err))).
Proof.
  revert lst. induction xs as [|x xs IH]; intros lst.
  - left. split; [constructor | now exists lst].
  - destruct (mail_ParseAddress x) as [a|err] eqn:Hx.
    + cbn [Gomail.getRecipients_values].
      rewrite (parseAddress_ok _ _ x a Hx).
      destruct (IH (addAddress lst (Address a)))
        as [[Hall [lst' E]]|(pre & v & post & err & -> & Hpre & Hv & E)].
      * left. split; [constructor; eauto |]. now exists lst'.
      * right. exists (x :: pre), v, post, err.
        split; [reflexivity |]. split; [constructor; eauto |]. now split.
    + right. exists [], x, xs, err. split; [reflexivity |].
      split; [constructor |]. split; [exact Hx |].
      cbn [Gomail.getRecipients_values].
      now rewrite (parseAddress_fail _ _ x err Hx).
Qed.

(** X3. getRecipients returns no error exactly when every value of To,
    Cc and Bcc parses; when it returns an error it returns no list. *)
Theorem getRecipients_succeeds_iff (m : Message) :
  (snd (getRecipients m) = None
   <-> Forall (fun v => parses v) (recipient_values m)) /\
  (snd (getRecipients m) <> None -> fst (getRecipients m) = []).
Proof.
  rewrite getRecipients_flat.
  destruct (getRecipients_values_cases (recipient_values m) [])
    as [[Hall [lst' E]]|(pre & v & post & err & Hm & Hpre & Hv & E)];
    rewrite E; cbn [fst snd].
  - split; [tauto | congruence].
  - split; [| reflexivity]. split; [discriminate |].
    rewrite Hm. intros H. apply Forall_app in H as [_ H].
    apply Forall_cons in H as [[a Ha] _]. congruence.
Qed.

Lemma getRecipients_count_spec (fields : list string) (m : Message) (n : nat) :
  getRecipients_count fields m n
  = (n + length (flat_map (header_index m) fields))%nat.
Proof.
  revert n. induction fields as [|f fields IH]; intros n; simpl; [lia |].
  rewrite length_app. unfold header_index at 1.
  destruct (header m !! f) as [addresses|]; rewrite IH; simpl; lia.
Qed.

Lemma getRecipients_values_length (xs lst : list string) :
  (length (fst (getRecipients_values xs lst)) <= length lst + length xs)%nat.
Proof.
  revert lst. induction xs as [|x xs IH]; intros lst; simpl; [lia |].
  destruct (parseAddress x) as [addr [err|]]; simpl; [lia |].
  specialize (IH (addAddress lst addr)).
  assert (length (addAddress lst addr) <= S (length lst))%nat; [| lia].
  rewrite addAddress_spec. destruct (bool_decide _); [lia |].
  rewrite length_app. simpl. lia.
Qed.

(** X4. The capacity that the first loop of getRecipients counts is the
    number of values of To, Cc and Bcc, and the list that getRecipients
    returns never grows past it. *)
Theorem getRecipients_within_capacity (m : Message) :
  getRecipients_capacity m = length (recipient_values m) /\
  (length (fst (getRecipients m)) <= getRecipients_capacity m)%nat.
Proof.
  assert (E : getRecipients_capacity m = length (recipient_values m)).
  { unfold getRecipients_capacity. rewrite getRecipients_count_spec.
    unfold recipient_values. simpl. now rewrite app_nil_r. }
  split; [exact E |]. rewrite E, getRecipients_flat.
  apply (getRecipients_values_length (recipient_values m) []).
Qed.

(** X5. getRecipients reads the values of To, Cc and Bcc and nothing
    else: two messages with the same values in these fields, a field with
    no value counting as absent, get the same result. *)
Theorem getRecipients_frame (m m' : Message) :
  header_index m "To" = header_index m' "To" ->
  header_index m "Cc" = header_index m' "Cc" ->
  header_index m "Bcc" = header_index m' "Bcc" ->
  getRecipients m = getRecipients m'.
Proof.
  intros H1 H2 H3. rewrite !getRecipients_flat. unfold recipient_values.
  now rewrite H1, H2, H3.
Qed.

Lemma fold_addAddress_prefix (xs lst : list string) :
  lst `prefix_of` fold_left addAddress xs lst.
Proof.
  revert lst. induction xs as [|x xs IH]; intros lst; [reflexivity |].
  simpl. etransitivity; [| apply IH].
  rewrite addAddress_spec. destruct (bool_decide _); [reflexivity |].
  now exists [x].
Qed.

(** X6. Values added after the last one do not disturb the recipients
    already derived: when every value parses, the list for the shorter
    run of values is a prefix of the list for the longer one. *)
Theorem getRecipients_stable (m m' : Message) (more : list string) :
  recipient_values m' = recipient_values m ++ more ->
  Forall (fun v => parses v) (recipient_values m') ->
  fst (getRecipients m) `prefix_of` fst (getRecipients m').
Proof.
  intros Hm Hall. rewrite !getRecipients_flat, Hm.
  rewrite Hm in Hall. apply Forall_app in Hall as [H1 H2].
  rewrite getRecipients_values_app,
    (getRecipients_values_ok _ _ _ _ H1), (getRecipients_values_ok _ _ _ _ H2).
  cbn [fst]. apply fold_addAddress_prefix.
Qed.

(** X7. getFrom reads the first value of Sender and the first value of
    From and nothing else: two messages that agree on these get the same
    result. *)
Theorem getFrom_frame (m m' : Message) :
  head (header_index m "Sender") = head (header_index m' "Sender") ->
  head (header_index m "From") = head (header_index m' "From") ->
  getFrom m = getFrom m'.
Proof.
  unfold Gomail.getFrom. intros HS HF.
  destruct (header_index m "Sender") as [|s0 ss],
           (header_index m' "Sender") as [|s0' ss']; simpl in HS;
    try discriminate HS.
  - destruct (header_index m "From") as [|f0 fs],
             (header_index m' "From") as [|f0' fs']; simpl in HF;
      try discriminate HF; [reflexivity |].
    now injection HF as ->.
  - now injection HS as ->.
Qed.

(** X8. A Sender value that does not parse is not made up for by From:
    getFrom fails with the error of that value, whatever From holds. *)
Theorem getFrom_invalid_Sender (m : Message) (s0 : string) (ss : list string)
        (err : error) :
  header m !! "Sender" = Some (s0 :: ss) ->
  mail_ParseAddress s0 = inr err ->
  getFrom m = (EmptyString, Some (errInvalidAddress s0 err)).
Proof.
  intros HS Hp. unfold Gomail.getFrom, header_index. rewrite HS.
  now apply parseAddress_fail.
Qed.

End EnvelopeMore.

(** ** send and Send *)

Lemma sent_messages_app (a b : list event) :
  sent_messages (a ++ b) = sent_messages a ++ sent_messages b.
Proof. apply flat_map_app. Qed.

Lemma flag_queries_app (a b : list event) :
  flag_queries (a ++ b) = (flag_queries a + flag_queries b)%nat.
Proof.
  induction a as [|ev a IH]; [reflexivity |].
  destruct ev; simpl; rewrite IH; reflexivity.
Qed.

Section SendMore.

Variable mail_ParseAddress : string -> mail_Address + error.
Variable isPrintTable : Z -> bool.
Variable RcptError : Type.
Variable Rcpts : list RcptError -> list string.
Variable RcptErrors_Error : list RcptError -> string.
Variable T : Type.

Local Abbreviation getFrom := (getFrom mail_ParseAddress isPrintTable).
Local Abbreviation getRecipients := (getRecipients mail_ParseAddress isPrintTable).
Local Abbreviation Sender := (Sender RcptError T).
Local Abbreviation send := (send mail_ParseAddress isPrintTable).
Local Abbreviation Send_loop :=
  (Send_loop mail_ParseAddress isPrintTable Rcpts RcptErrors_Error).
Local Abbreviation Send :=
  (Send mail_ParseAddress isPrintTable Rcpts RcptErrors_Error).
Local Abbreviation AllSent := (AllSent mail_ParseAddress isPrintTable).
Local Abbreviation errSkipped := (errSkipped Rcpts RcptErrors_Error).
Local Abbreviation adapter := (SendFunc_Sender RcptError).

Implicit Types (s : Sender) (m : Message) (w : world T) (i : Z).
Implicit Types (msg pre post rest : list Message).
Implicit Types (rcptErr rcptErrs errs : list RcptError) (cause e : error).

Lemma send_no_from s m w (from : string) e :
  getFrom m = (from, Some e) ->
  send s m w = (([], Some e), World (transport w) (trace w ++ [EvGetFrom m])).
Proof.
  intros H. unfold Gomail.send, bind, pure_call, ret. now rewrite H.
Qed.

Lemma send_no_recipients s m w (from : string) (to : list string) e :
  getFrom m = (from, None) ->
  getRecipients m = (to, Some e) ->
  send s m w
  = (([], Some e),
     World (transport w) (trace w ++ [EvGetFrom m; EvGetRecipients m])).
Proof.
  intros Hf Hr. unfold Gomail.send, bind, pure_call, ret.
  rewrite Hf, Hr. cbn [transport trace]. now rewrite <- app_assoc.
Qed.

(** The message goes to the transport at most once, and once when send
    returns no hard error. *)
Lemma send_sent s m w (r : list RcptError) (err : option error) (w2 : world T) :
  send s m w = ((r, err), w2) ->
  (err = None -> sent_messages (trace w2) = sent_messages (trace w) ++ [m]) /\
  exists b : bool,
    sent_messages (trace w2)
    = sent_messages (trace w) ++ (if b then [m] else []).
Proof.
  destruct (getFrom m) as [from [e|]] eqn:Hf.
  { rewrite (send_no_from s m w from e Hf). intros Heq; inversion Heq; subst; clear Heq.
    split; [discriminate |]. exists false. cbn [trace].
    rewrite sent_messages_app. reflexivity. }
  destruct (getRecipients m) as [to [e|]] eqn:Hr.
  { rewrite (send_no_recipients s m w from to e Hf Hr). intros Heq; inversion Heq; subst; clear Heq.
    split; [discriminate |]. exists false. cbn [trace].
    rewrite sent_messages_app. reflexivity. }
  rewrite (send_enveloped _ _ _ _ s m w from to Hf Hr).
  destruct (Sender_SkipErrRcpt s (transport w)) as [[] t1].
  - destruct (Sender_SkippableSend s from to m t1) as [r' t2].
    intros Heq; inversion Heq; subst; clear Heq. cbn [trace].
    rewrite !sent_messages_app. simpl. rewrite app_nil_r.
    split; [reflexivity | now exists true].
  - destruct (Sender_Send s from to m t1) as [err' t2].
    intros Heq; inversion Heq; subst; clear Heq. cbn [trace].
    rewrite !sent_messages_app. simpl. rewrite app_nil_r.
    split; [reflexivity | now exists true].
Qed.

(** A run either gets through the batch or stops at a first message. *)
Lemma run_cases s msg :
  forall w,
    (exists errs w', AllSent s msg w errs w')
    \/ (exists pre m post errs w1 rcptErr cause (w2 : world T),
          msg = pre ++ m :: post /\ AllSent s pre w errs w1 /\
          send s m w1 = ((rcptErr, Some cause), w2)).
Proof.
  induction msg as [|m rest IH]; intros w.
  - left. exists [], w. constructor.
  - destruct (send s m w) as [[rcptErr [cause|]] w1] eqn:E.
    + right. exists [], m, rest, [], w, rcptErr, cause, w1.
      split; [reflexivity |]. split; [constructor | exact E].
    + destruct (IH w1)
        as [(errs & w' & H)
           |(pre & m' & post & errs & w1' & r' & cause & w2 & -> & H & E')].
      * left. exists (rcptErr ++ errs), w'. econstructor; eassumption.
      * right. exists (m :: pre), m', post, (rcptErr ++ errs), w1', r', cause, w2.
        split; [reflexivity |]. split; [econstructor; eassumption | exact E'].
Qed.

Lemma Send_AllSent s msg w errs (w' : world T) :
  AllSent s msg w errs w' ->
  Send s msg w
  = (match errs with [] => None | _ => Some (errSkipped errs) end, w').
Proof.
  intros H. unfold Gomail.Send.
  rewrite <- (app_nil_r msg), (Send_loop_AllSent _ _ _ _ _ _ s msg w errs w' H).
  apply Send_loop_nil.
Qed.

(** X9. When the envelope of a message cannot be derived, send returns
    the error of the extraction and the sender is not consulted: the
    transport is as it was, no message has gone to it, and any other
    sender gives the same outcome. *)
Theorem send_envelope_failure s m w e :
  snd (getFrom m) = Some e
  \/ (snd (getFrom m) = None /\ snd (getRecipients m) = Some e) ->
  fst (send s m w) = ([], Some e) /\
  transport (snd (send s m w)) = transport w /\
  sent_messages (trace (snd (send s m w))) = sent_messages (trace w) /\
  forall s', send s' m w = send s m w.
Proof.
  intros [H|[H1 H2]].
  - destruct (getFrom m) as [from o] eqn:Hf. cbn [snd] in H. subst o.
    rewrite (send_no_from s m w from e Hf). cbn [fst snd transport trace].
    rewrite sent_messages_app, app_nil_r.
    repeat split. intros s'. apply send_no_from with from. exact Hf.
  - destruct (getFrom m) as [from o] eqn:Hf. cbn [snd] in H1. subst o.
    destruct (getRecipients m) as [to o] eqn:Hr. cbn [snd] in H2. subst o.
    rewrite (send_no_recipients s m w from to e Hf Hr).
    cbn [fst snd transport trace]. rewrite sent_messages_app, app_nil_r.
    repeat split. intros s'. now apply send_no_recipients with from to.
Qed.

(** X10. send makes no hard error of its own: the one it returns is the
    error of getFrom, or with a sender derived the error of getRecipients,
    or with the envelope derived the error that the one call into the
    transport came back with. *)
Theorem send_hard_error_source s m w rcptErr cause (w2 : world T) :
  send s m w = ((rcptErr, Some cause), w2) ->
  snd (getFrom m) = Some cause
  \/ (snd (getFrom m) = None /\ snd (getRecipients m) = Some cause)
  \/ (exists from to (skip : bool) (t1 t2 : T),
         getFrom m = (from, None) /\ getRecipients m = (to, None) /\
         Sender_SkipErrRcpt s (transport w) = (skip, t1) /\
         transport w2 = t2 /\
         if skip
         then Sender_SkippableSend s from to m t1 = ((rcptErr, Some cause), t2)
         else Sender_Send s from to m t1 = (Some cause, t2) /\ rcptErr = []).
Proof.
  destruct (getFrom m) as [from [e|]] eqn:Hf.
  { rewrite (send_no_from s m w from e Hf).
    intros Heq; inversion Heq; subst; clear Heq. now left. }
  destruct (getRecipients m) as [to [e|]] eqn:Hr.
  { rewrite (send_no_recipients s m w from to e Hf Hr).
    intros Heq; inversion Heq; subst; clear Heq. right. left. now split. }
  rewrite (send_enveloped _ _ _ _ s m w from to Hf Hr).
  destruct (Sender_SkipErrRcpt s (transport w)) as [skip t1] eqn:Hs.
  destruct skip.
  - destruct (Sender_SkippableSend s from to m t1) as [[r' e'] t2] eqn:Hc.
    intros Heq; inversion Heq; subst; clear Heq.
    right. right. exists from, to, true, t1, t2. now repeat split.
  - destruct (Sender_Send s from to m t1) as [e' t2] eqn:Hc.
    intros Heq; inversion Heq; subst; clear Heq.
    right. right. exists from, to, false, t1, t2. now repeat split.
Qed.

(** X11. What Send does with a batch, in full.  Either every message is
    sent with no hard error, and Send returns nil or the error of the
    skipped recipients according to what was collected; or the batch
    splits at the first message that fails hard, and Send returns the
    error with the position of that message, which lies within the
    batch. *)
Theorem Send_cases s msg w :
  (exists errs (w' : world T),
      AllSent s msg w errs w' /\
      Send s msg w
      = (match errs with [] => None | _ => Some (errSkipped errs) end, w'))
  \/ (exists pre m post errs w1 rcptErr cause (w2 : world T),
        msg = pre ++ m :: post /\ AllSent s pre w errs w1 /\
        send s m w1 = ((rcptErr, Some cause), w2) /\
        let pos := Z.of_nat (length pre) + 1 in
        1 <= pos <= Z.of_nat (length msg) /\
        Send s msg w = (Some (errCouldNotSend pos cause), w2)).
Proof.
  destruct (run_cases s msg w)
    as [(errs & w' & H)
       |(pre & m & post & errs & w1 & r & cause & w2 & -> & H & E)].
  - left. exists errs, w'. split; [exact H | now apply Send_AllSent].
  - right. exists pre, m, post, errs, w1, r, cause, w2.
    split; [reflexivity |]. split; [exact H |]. split; [exact E |].
    split; [rewrite length_app; simpl; lia |].
    now apply (Send_aborts _ _ _ _ _ _ s pre m post w errs w1 r cause w2).
Qed.

(** X12. Send returns nil exactly when every message of the batch is sent
    with no hard error and no per-recipient error comes back. *)
Theorem Send_nil_iff s msg w :
  fst (Send s msg w) = None <-> exists w' : world T, AllSent s msg w [] w'.
Proof.
  split.
  - destruct (run_cases s msg w)
      as [(errs & w' & H)
         |(pre & m & post & errs & w1 & r & cause & w2 & -> & H & E)].
    + rewrite (Send_AllSent s msg w errs w' H). cbn [fst].
      destruct errs; [eauto | discriminate].
    + rewrite (Send_aborts _ _ _ _ _ _ s pre m post w errs w1 r cause w2 H E).
      discriminate.
  - intros [w' H]. now rewrite (Send_AllSent s msg w [] w' H).
Qed.

(** X13. IsSkipRcptErr says yes to what Send returns exactly when every
    message of the batch was sent with no hard error and some
    per-recipient error came back: a caller who gets yes knows that no
    message was left out. *)
Theorem IsSkipRcptErr_Send_iff s msg w :
  IsSkipRcptErr (fst (Send s msg w)) = Returns true
  <-> exists errs (w' : world T), errs <> [] /\ AllSent s msg w errs w'.
Proof.
  split.
  - destruct (run_cases s msg w)
      as [(errs & w' & H)
         |(pre & m & post & errs & w1 & r & cause & w2 & -> & H & E)].
    + rewrite (Send_AllSent s msg w errs w' H). cbn [fst].
      destruct errs as [|r0 rs]; [discriminate |].
      intros _. exists (r0 :: rs), w'. split; [discriminate | exact H].
    + rewrite (Send_aborts _ _ _ _ _ _ s pre m post w errs w1 r cause w2 H E).
      discriminate.
  - intros (errs & w' & Hne & H). rewrite (Send_AllSent s msg w errs w' H).
    destruct errs as [|r0 rs]; [contradiction |]. cbn [fst].
    unfold IsSkipRcptErr. now rewrite errSkipped_prefix.
Qed.

Lemma AllSent_sent s msg w errs (w' : world T) :
  AllSent s msg w errs w' ->
  sent_messages (trace w') = sent_messages (trace w) ++ msg.
Proof.
  induction 1 as [w|m tl w w1 w' rcptErr errs Hm _ IH].
  - now rewrite app_nil_r.
  - destruct (send_sent s m w rcptErr None w1 Hm) as [Hs _].
    rewrite IH, (Hs eq_refl), <- app_assoc. reflexivity.
Qed.

(** X14. Send hands the messages to the transport in the order of the
    batch, each at most once, and none after one that was not handed
    over: the messages gone to the transport during the run are the
    first few of the batch. *)
Theorem Send_sends_a_prefix s msg w :
  exists k : nat,
    sent_messages (trace (snd (Send s msg w)))
    = sent_messages (trace w) ++ take k msg.
Proof.
  destruct (run_cases s msg w)
    as [(errs & w' & H)
       |(pre & m & post & errs & w1 & r & cause & w2 & -> & H & E)].
  - rewrite (Send_AllSent s msg w errs w' H). cbn [snd].
    exists (length msg). rewrite firstn_all. now apply AllSent_sent with s errs.
  - rewrite (Send_aborts _ _ _ _ _ _ s pre m post w errs w1 r cause w2 H E).
    cbn [snd]. destruct (send_sent s m w1 r (Some cause) w2 E) as [_ [b Hb]].
    rewrite Hb, (AllSent_sent s pre w errs w1 H), <- app_assoc.
    destruct b.
    + exists (S (length pre)). f_equal.
      replace (pre ++ m :: post) with ((pre ++ [m]) ++ post)
        by now rewrite <- app_assoc.
      rewrite take_app_length'; [reflexivity |].
      rewrite length_app. simpl. lia.
    + exists (length pre). rewrite app_nil_r. f_equal.
      now rewrite take_app_length.
Qed.

(** X15. When every message of the batch is sent with no hard error,
    each message has gone to the transport exactly once, in the order of
    the batch. *)
Theorem Send_sends_all s msg w errs (w' : world T) :
  AllSent s msg w errs w' ->
  sent_messages (trace (snd (Send s msg w))) = sent_messages (trace w) ++ msg.
Proof.
  intros H. rewrite (Send_AllSent s msg w errs w' H). cbn [snd].
  now apply AllSent_sent with s errs.
Qed.

Lemma send_adapter_no_rcptErr (f : SendFunc T) m w (r : list RcptError)
      (err : option error) (w2 : world T) :
  send (adapter f) m w = ((r, err), w2) -> r = [].
Proof.
  destruct (getFrom m) as [from [e|]] eqn:Hf.
  { rewrite (send_no_from _ m w from e Hf). intros Heq. now inversion Heq. }
  destruct (getRecipients m) as [to [e|]] eqn:Hr.
  { rewrite (send_no_recipients _ m w from to e Hf Hr).
    intros Heq. now inversion Heq. }
  rewrite (send_enveloped _ _ _ _ _ m w from to Hf Hr).
  cbn [Sender_SkipErrRcpt Sender_Send SendFunc_Sender].
  unfold SendFunc_SkipErrRcpt, SendFunc_Send.
  destruct (f from to m (transport w)) as [e' t2].
  intros Heq. now inversion Heq.
Qed.

Lemma AllSent_adapter_no_rcptErr (f : SendFunc T) msg w errs (w' : world T) :
  AllSent (adapter f) msg w errs w' -> errs = [].
Proof.
  induction 1 as [w|m tl w w1 w' rcptErr errs Hm _ IH]; [reflexivity |].
  now rewrite (send_adapter_no_rcptErr f m w rcptErr None w1 Hm), IH.
Qed.

(** X16. Through the function adapter Send never reports skipped
    recipients: it returns nil or the error of a hard failure, and
    IsSkipRcptErr does not say yes to what it returns. *)
Theorem Send_adapter_never_skips (f : SendFunc T) msg w :
  (fst (Send (adapter f) msg w) = None
   \/ exists (pos : Z) cause,
        fst (Send (adapter f) msg w) = Some (errCouldNotSend pos cause)) /\
  IsSkipRcptErr (fst (Send (adapter f) msg w)) <> Returns true.
Proof.
  destruct (run_cases (adapter f) msg w)
    as [(errs & w' & H)
       |(pre & m & post & errs & w1 & r & cause & w2 & -> & H & E)].
  - rewrite (Send_AllSent _ msg w errs w' H).
    rewrite (AllSent_adapter_no_rcptErr f msg w errs w' H). cbn [fst].
    split; [now left | discriminate].
  - rewrite (Send_aborts _ _ _ _ _ _ _ pre m post w errs w1 r cause w2 H E).
    cbn [fst]. split; [right; eauto | discriminate].
Qed.

(** Queries of the flag and hand-overs go in pairs. *)
Lemma send_balance s m w (r : list RcptError * option error) (w2 : world T) :
  send s m w = (r, w2) ->
  (flag_queries (trace w2) + length (sent_messages (trace w))
   = flag_queries (trace w) + length (sent_messages (trace w2)))%nat.
Proof.
  destruct (getFrom m) as [from [e|]] eqn:Hf.
  { rewrite (send_no_from s m w from e Hf).
    intros Heq; inversion Heq; subst; clear Heq. cbn [trace].
    rewrite flag_queries_app, sent_messages_app, length_app. simpl. lia. }
  destruct (getRecipients m) as [to [e|]] eqn:Hr.
  { rewrite (send_no_recipients s m w from to e Hf Hr).
    intros Heq; inversion Heq; subst; clear Heq. cbn [trace].
    rewrite flag_queries_app, sent_messages_app, length_app. simpl. lia. }
  rewrite (send_enveloped _ _ _ _ s m w from to Hf Hr).
  destruct (Sender_SkipErrRcpt s (transport w)) as [[] t1].
  - destruct (Sender_SkippableSend s from to m t1) as [r' t2].
    intros Heq; inversion Heq; subst; clear Heq. cbn [trace].
    rewrite !flag_queries_app, !sent_messages_app, !length_app. simpl. lia.
  - destruct (Sender_Send s from to m t1) as [err' t2].
    intros Heq; inversion Heq; subst; clear Heq. cbn [trace].
    rewrite !flag_queries_app, !sent_messages_app, !length_app. simpl. lia.
Qed.

Lemma AllSent_balance s msg w errs (w' : world T) :
  AllSent s msg w errs w' ->
  (flag_queries (trace w') + length (sent_messages (trace w))
   = flag_queries (trace w) + length (sent_messages (trace w')))%nat.
Proof.
  induction 1 as [w|m tl w w1 w' rcptErr errs Hm _ IH]; [lia |].
  pose proof (send_balance s m w _ w1 Hm). lia.
Qed.

(** X17. The skip flag is asked for anew for each message, right before
    the message goes to the transport: over a run of Send, whatever its
    outcome, there are as many queries of the flag as messages handed
    over. *)
Theorem Send_asks_per_message s msg w :
  (flag_queries (trace (snd (Send s msg w))) + length (sent_messages (trace w))
   = flag_queries (trace w)
     + length (sent_messages (trace (snd (Send s msg w)))))%nat.
Proof.
  destruct (run_cases s msg w)
    as [(errs & w' & H)
       |(pre & m & post & errs & w1 & r & cause & w2 & -> & H & E)].
  - rewrite (Send_AllSent s msg w errs w' H). cbn [snd].
    now apply AllSent_balance with s msg errs.
  - rewrite (Send_aborts _ _ _ _ _ _ s pre m post w errs w1 r cause w2 H E).
    cbn [snd]. pose proof (AllSent_balance s pre w errs w1 H).
    pose proof (send_balance s m w1 _ w2 E). lia.
Qed.

Lemma Send_loop_nil_iff s msg w i rcptErrs :
  fst (Send_loop s i msg rcptErrs w) = None
  <-> rcptErrs = [] /\ fst (Send s msg w) = None.
Proof.
  unfold Gomail.Send.
  destruct (run_cases s msg w)
    as [(errs & w' & H)
       |(pre & m & post & errs & w1 & r & cause & w2 & -> & H & E)].
  - pose proof (Send_loop_AllSent mail_ParseAddress isPrintTable RcptError
                  Rcpts RcptErrors_Error T s msg w errs w' H) as L.
    rewrite <- (app_nil_r msg), !L, !Send_loop_nil. cbn [fst app].
    destruct rcptErrs as [|r0 rs], errs as [|e0 es]; cbn [app];
      split; try tauto; try discriminate; intros [? ?]; discriminate.
  - rewrite !(Send_loop_AllSent _ _ _ _ _ _ s pre w errs w1 H),
      !(Send_loop_hard _ _ _ _ _ _ _ _ _ _ _ _ _ _ _ E). cbn [fst].
    split; [discriminate | intros [_ ?]; discriminate].
Qed.

Lemma Send_loop_world s msg w i j rcptErrs rcptErrs' :
  snd (Send_loop s i msg rcptErrs w) = snd (Send_loop s j msg rcptErrs' w).
Proof.
  destruct (run_cases s msg w)
    as [(errs & w' & H)
       |(pre & m & post & errs & w1 & r & cause & w2 & -> & H & E)].
  - pose proof (Send_loop_AllSent mail_ParseAddress isPrintTable RcptError
                  Rcpts RcptErrors_Error T s msg w errs w' H) as L.
    rewrite <- (app_nil_r msg), !L, !Send_loop_nil. reflexivity.
  - rewrite !(Send_loop_AllSent _ _ _ _ _ _ s pre w errs w1 H),
      !(Send_loop_hard _ _ _ _ _ _ _ _ _ _ _ _ _ _ _ E). reflexivity.
Qed.

(** X18. A batch against one call per message.  Send returns nil for a
    batch exactly when it returns nil for the first message alone and
    then nil for the rest, started where the first call ended; and when
    the first call returns nil, both ways leave the transport and the
    calls made the same. *)
Theorem Send_cons s m rest w :
  (fst (Send s (m :: rest) w) = None
   <-> fst (Send s [m] w) = None
       /\ fst (Send s rest (snd (Send s [m] w))) = None) /\
  (fst (Send s [m] w) = None ->
   snd (Send s (m :: rest) w) = snd (Send s rest (snd (Send s [m] w)))).
Proof.
  destruct (send s m w) as [[rcptErr [cause|]] w1] eqn:E.
  - assert (E1 : forall tl, Send s (m :: tl) w
                            = (Some (errCouldNotSend (0 + 1) cause), w1))
      by (intros tl; unfold Gomail.Send; now apply Send_loop_hard with rcptErr).
    rewrite !E1. cbn [fst snd].
    split; [| discriminate]. split; [discriminate | intros [? _]; discriminate].
  - assert (E1 : forall tl, Send s (m :: tl) w
                            = Send_loop s (0 + 1) tl ([] ++ rcptErr) w1)
      by (intros tl; unfold Gomail.Send; now apply Send_loop_sent).
    rewrite !E1, Send_loop_nil. cbn [fst snd app]. split.
    + rewrite Send_loop_nil_iff. destruct rcptErr; [tauto |].
      split; [intros [? _]; discriminate | intros [? _]; discriminate].
    + intros _. apply Send_loop_world.
Qed.

End SendMore.

(** * Worked examples *)

Section Worked.

Import Sample.

Local Abbreviation parseAddress := (parseAddress ParseAddress isPrintTable).
Local Abbreviation getFrom := (getFrom ParseAddress isPrintTable).
Local Abbreviation getRecipients := (getRecipients ParseAddress isPrintTable).
Local Abbreviation send := (send ParseAddress isPrintTable).
Local Abbreviation AllSent := (AllSent ParseAddress isPrintTable).
Local Abbreviation adapter := (SendFunc_Sender RcptError).

(** Against C2 as stated: IsSkipRcptErr does not answer false on nil. *)
Lemma IsSkipRcptErr_nil_not_false : IsSkipRcptErr None <> Returns false.
Proof. discriminate. Qed.



(** Scenario B, over two messages: c@x.com is skipped in both. *)
Lemma Send_all_sent_witness :
  let errs := [unknown_user "c@x.com"; unknown_user "c@x.com"] in
  let w' := World 2%nat
              (skip_calls letter "a@x.com" ["b@x.com"; "c@x.com"]
               ++ skip_calls on_behalf "s@x.com"
                             ["b@x.com"; "c@x.com"; "d@x.com"]) in
  AllSent skipper [letter; on_behalf] start errs w' /\
  exists e, Send' skipper [letter; on_behalf] start = (Some e, w') /\
            IsSkipRcptErr (Some e) = Returns true /\
            Contains (Error e) "[c@x.com c@x.com]" = true /\
            Contains (Error e) "550 user unknown" = true.
Proof.
  intros errs w'.
  assert (H : AllSent skipper [letter; on_behalf] start errs w').
  { change errs with ([unknown_user "c@x.com"]
                       ++ [unknown_user "c@x.com"] ++ []).
    eapply AllSent_cons; [vm_compute; reflexivity |].
    eapply AllSent_cons; [vm_compute; reflexivity |].
    apply AllSent_nil. }
  split; [exact H |].
  destruct (Send_all_sent ParseAddress isPrintTable RcptError Rcpts
              RcptErrors_Error nat skipper _ _ _ _ H) as [_ Hs].
  destruct (Hs ltac:(discriminate)) as (HS & _).
  eexists. split; [exact HS |]. repeat split; vm_compute; reflexivity.
Defined.

(** Scenario C: the first message has neither Sender nor From. *)
Lemma Send_fail_fast_witness :
  Send' skipper [unsigned; letter] start
  = (Some (errorString
             ("gomail: could not send email 1: gomail: invalid message, "
              +:+ str1 dq +:+ "From" +:+ str1 dq +:+ " field is absent")),
     World 0%nat [EvGetFrom unsigned]).
Proof.
  apply (Send_fail_fast ParseAddress isPrintTable RcptError Rcpts
           RcptErrors_Error nat skipper [] unsigned [letter] start [] start
           [] errFromAbsent (World 0%nat [EvGetFrom unsigned])).
  - constructor.
  - reflexivity.
Defined.

(** The connection drops on the second of three messages. *)
Lemma Send_hard_error_drops_rcptErrs_witness :
  let w1 := World 1%nat (skip_calls letter "a@x.com" ["b@x.com"; "c@x.com"]) in
  AllSent dropper [letter] start [unknown_user "c@x.com"] w1 /\
  Sender_SkippableSend dropper "s@x.com" ["b@x.com"; "c@x.com"; "d@x.com"]
                       on_behalf 1%nat
  = (([unknown_user "c@x.com"], Some (errorString "EOF")), 2%nat) /\
  fst (Send' dropper [letter; on_behalf; letter] start)
  = Some (errorString "gomail: could not send email 2: EOF") /\
  transport (snd (Send' dropper [letter; on_behalf; letter] start)) = 2%nat.
Proof.
  intros w1.
  assert (H : AllSent dropper [letter] start [unknown_user "c@x.com"] w1).
  { change [unknown_user "c@x.com"] with ([unknown_user "c@x.com"] ++ []).
    eapply AllSent_cons; [vm_compute; reflexivity |].
    apply AllSent_nil. }
  split; [exact H |]. split; [reflexivity |].
  destruct (Send_hard_error_drops_rcptErrs ParseAddress isPrintTable RcptError
              Rcpts RcptErrors_Error nat dropper [letter] on_behalf [letter]
              start _ w1 "s@x.com" ["b@x.com"; "c@x.com"; "d@x.com"]
              1%nat 2%nat [unknown_user "c@x.com"] (errorString "EOF")
              H eq_refl eq_refl eq_refl eq_refl) as (H1 & H2 & _).
  split; [exact H1 | exact H2].
Defined.

Lemma getFrom_Sender_wins_witness :
  header on_behalf !! "Sender" = Some ["s@x.com"] /\
  header on_behalf !! "From" = Some ["a@x.com"] /\
  getFrom on_behalf = ("s@x.com", None).
Proof.
  split; [reflexivity |]. split; [reflexivity |].
  rewrite (getFrom_Sender_wins ParseAddress isPrintTable on_behalf
             "s@x.com" [] eq_refl).
  reflexivity.
Defined.

Lemma getFrom_fallback_witness :
  (absent_or_empty letter "Sender" /\ getFrom letter = ("a@x.com", None)) /\
  (absent_or_empty unsigned "Sender" /\ absent_or_empty unsigned "From" /\
   getFrom unsigned = (EmptyString, Some errFromAbsent)).
Proof.
  split.
  - assert (H : absent_or_empty letter "Sender") by (left; reflexivity).
    split; [exact H |].
    destruct (getFrom_fallback ParseAddress isPrintTable letter H) as [H1 _].
    rewrite (H1 "a@x.com" [] eq_refl). reflexivity.
  - assert (H : absent_or_empty unsigned "Sender") by (left; reflexivity).
    assert (H' : absent_or_empty unsigned "From") by (left; reflexivity).
    split; [exact H |]. split; [exact H' |].
    destruct (getFrom_fallback ParseAddress isPrintTable unsigned H)
      as (_ & H2 & _).
    exact (H2 H').
Defined.


Lemma getRecipients_dedup_witness :
  recipient_values on_behalf
  = ["b@x.com"; "c@x.com"; "b@x.com"; "d@x.com"; "c@x.com"] /\
  getRecipients on_behalf = (["b@x.com"; "c@x.com"; "d@x.com"], None) /\
  exists lst, getRecipients on_behalf = (lst, None) /\ NoDup lst.
Proof.
  split; [reflexivity |]. split; [reflexivity |].
  assert (H : Forall (fun v => exists a, ParseAddress v = inl a)
                     (recipient_values on_behalf))
    by (repeat constructor; eexists; reflexivity).
  destruct (getRecipients_dedup ParseAddress isPrintTable on_behalf H)
    as (lst & H1 & H2 & _).
  exists lst. split; [exact H1 | exact H2].
Defined.

End Worked.

(** ** More worked examples *)

Section WorkedMore.

Import Sample.

Local Abbreviation getFrom := (getFrom ParseAddress isPrintTable).
Local Abbreviation getRecipients := (getRecipients ParseAddress isPrintTable).
Local Abbreviation send := (send ParseAddress isPrintTable).
Local Abbreviation AllSent := (AllSent ParseAddress isPrintTable).
Local Abbreviation errInvalidAddress := (errInvalidAddress isPrintTable).

Lemma addAddress_NoDup_witness :
  NoDup ["b@x.com"; "c@x.com"] /\
  NoDup (addAddress ["b@x.com"; "c@x.com"] "d@x.com") /\
  NoDup (addAddress ["b@x.com"; "c@x.com"] "c@x.com").
Proof.
  assert (H : NoDup ["b@x.com"; "c@x.com"]).
  { apply (bool_decide_unpack _). vm_compute. exact I. }
  split; [exact H |].
  split; apply (addAddress_NoDup _ _ H).
Defined.

(** The subject and an empty Cc make no difference. *)
Lemma getRecipients_frame_witness :
  header letter !! "Cc" = None /\ header letter_again !! "Cc" = Some [] /\
  getRecipients letter_again = getRecipients letter /\
  getRecipients letter = (["b@x.com"; "c@x.com"], None).
Proof.
  split; [reflexivity |]. split; [reflexivity |]. split; [| reflexivity].
  apply (getRecipients_frame ParseAddress isPrintTable letter_again letter);
    reflexivity.
Defined.

Lemma getRecipients_stable_witness :
  recipient_values letter_bcc
  = recipient_values letter ++ ["c@x.com"; "e@x.com"] /\
  fst (getRecipients letter) `prefix_of` fst (getRecipients letter_bcc) /\
  fst (getRecipients letter) = ["b@x.com"; "c@x.com"] /\
  fst (getRecipients letter_bcc) = ["b@x.com"; "c@x.com"; "e@x.com"].
Proof.
  split; [reflexivity |]. split; [| split; reflexivity].
  apply (getRecipients_stable ParseAddress isPrintTable letter letter_bcc
           ["c@x.com"; "e@x.com"]); [reflexivity |].
  repeat constructor; eexists; reflexivity.
Defined.

(** A second value of From and another subject make no difference. *)
Lemma getFrom_frame_witness :
  header_index letter_again "From" = ["a@x.com"; "z@x.com"] /\
  getFrom letter_again = getFrom letter /\
  getFrom letter = ("a@x.com", None).
Proof.
  split; [reflexivity |]. split; [| reflexivity].
  apply (getFrom_frame ParseAddress isPrintTable letter_again letter);
    reflexivity.
Defined.

Lemma getFrom_invalid_Sender_witness :
  header bad_sender !! "From" = Some ["a@x.com"] /\
  getFrom bad_sender
  = (EmptyString, Some (errInvalidAddress bad no_angle_addr)).
Proof.
  split; [reflexivity |].
  apply (getFrom_invalid_Sender ParseAddress isPrintTable bad_sender bad []);
    reflexivity.
Defined.

(** A recipient that does not parse: the transport has seen nothing. *)
Lemma send_envelope_failure_witness :
  let e := errInvalidAddress bad no_angle_addr in
  getFrom bad_recipient = ("a@x.com", None) /\
  getRecipients bad_recipient = ([], Some e) /\
  fst (send skipper bad_recipient start) = ([], Some e) /\
  transport (snd (send skipper bad_recipient start)) = 0%nat /\
  send dropper bad_recipient start = send skipper bad_recipient start.
Proof.
  intros e. split; [reflexivity |]. split; [reflexivity |].
  destruct (send_envelope_failure ParseAddress isPrintTable RcptError nat
              skipper bad_recipient start e
              (or_intror (conj eq_refl eq_refl))) as (H1 & H2 & _ & H4).
  split; [exact H1 |]. split; [exact H2 | exact (H4 dropper)].
Defined.

(** The connection drops: the hard error is the one SkippableSend
    returned. *)
Lemma send_hard_error_source_witness :
  let w2 := World 2%nat
              (skip_calls on_behalf "s@x.com" ["b@x.com"; "c@x.com"; "d@x.com"]) in
  send dropper on_behalf (World 1%nat [])
  = (([unknown_user "c@x.com"], Some (errorString "EOF")), w2) /\
  exists from to (t1 t2 : nat),
    getFrom on_behalf = (from, None) /\ getRecipients on_behalf = (to, None) /\
    Sender_SkippableSend dropper from to on_behalf t1
    = (([unknown_user "c@x.com"], Some (errorString "EOF")), t2).
Proof.
  intros w2.
  assert (H : send dropper on_behalf (World 1%nat [])
              = (([unknown_user "c@x.com"], Some (errorString "EOF")), w2))
    by reflexivity.
  split; [exact H |].
  destruct (send_hard_error_source ParseAddress isPrintTable RcptError nat
              dropper on_behalf _ _ _ _ H)
    as [H1|[[_ H1]|(from & to & skip & t1 & t2 & Hf & Hr & Hs & _ & Hc)]].
  - vm_compute in H1. discriminate H1.
  - vm_compute in H1. discriminate H1.
  - exists from, to, t1, t2. split; [exact Hf |]. split; [exact Hr |].
    destruct skip; [exact Hc |].
    vm_compute in Hs. discriminate Hs.
Defined.

Lemma skipper_run :
  AllSent skipper [letter; on_behalf] start
          ([unknown_user "c@x.com"] ++ [unknown_user "c@x.com"] ++ [])
          (World 2%nat
             (skip_calls letter "a@x.com" ["b@x.com"; "c@x.com"]
              ++ skip_calls on_behalf "s@x.com"
                            ["b@x.com"; "c@x.com"; "d@x.com"])).
Proof.
  eapply AllSent_cons; [vm_compute; reflexivity |].
  eapply AllSent_cons; [vm_compute; reflexivity |].
  apply AllSent_nil.
Qed.

Lemma Send_sends_all_witness :
  sent_messages (trace (snd (Send' skipper [letter; on_behalf] start)))
  = [letter; on_behalf].
Proof.
  apply (Send_sends_all ParseAddress isPrintTable RcptError Rcpts
           RcptErrors_Error nat skipper [letter; on_behalf] start _ _
           skipper_run).
Defined.

End WorkedMore.
